(** * CasADi [Map]: replicated evaluation of a base function

    Shallow embedding of [casadi/core/function/map.cpp]: the factory
    [MapBase::create], the constructor, the work-size registration of
    [Map::init] and [MapOmp::init], the serial evaluator [Map::evalGen]
    with its four entry points, [Map::sp_rev], the OpenMP evaluator
    [MapOmp::eval], the derivative constructors and the two code
    generators.

    Conventions.
    - A C++ [int] is a [Z]; signed overflow is undefined behaviour and is
      not modelled.  A [size_t] is an [N] below [2^64]; its multiplication
      wraps and the wrap-around is written out.
    - A data pointer ([T*], [int*]) is an address in [Z], counted in
      elements; the null pointer is [0].
    - An array of pointers ([const T**], [T**]) is a function from the
      index to the pointer stored there; the caller owns it and the code
      never checks its extent.
    - A C++ exception is the [Raise] outcome of the [result] type. *)

From stdpp Require Import base list strings gmap pretty.
From Stdlib Require Import ZArith Lia.

Local Open Scope Z_scope.

(** ** Results and errors *)

Inductive result (A : Type) : Type :=
| Ok (a : A)
| Raise (msg : string).
Arguments Ok {A} a.
Arguments Raise {A} msg.

(** [casadi_error(msg)] throws. *)
Definition casadi_error {A : Type} (msg : string) : result A := Raise msg.

Definition is_ok {A : Type} (r : result A) : bool :=
  match r with Ok _ => true | Raise _ => false end.

(** ** Machine sizes *)

Definition size_t_modulus : N := (2 ^ 64)%N.

(** Conversion of an [int] operand to [size_t] in a mixed product. *)
Definition size_t_of_int (n : Z) : N := Z.to_N (n mod Z.of_N size_t_modulus).

Definition size_t_mul (a b : N) : N := ((a * b) mod size_t_modulus)%N.

(** ** Pointers, pointer arrays and call frames *)

Definition ptr : Type := Z.
Definition ptr_array : Type := Z → ptr.

(** [a[k] = v] *)
Definition store (a : ptr_array) (k : Z) (v : ptr) : ptr_array :=
  λ x, if x =? k then v else a x.

(** The array seen from [a + off]. *)
Definition shift (a : ptr_array) (off : Z) : ptr_array := λ k, a (off + k).

(** What one invocation of the base function receives: the two pointer
    arrays as seen from the pointers handed over ([fr_arg_at] and
    [fr_res_at] are where those pointers point inside the caller's [arg]
    and [res]), and the two work vectors. *)
Record Frame : Type := mkFrame {
  fr_arg_at : Z;
  fr_res_at : Z;
  fr_arg : ptr_array;
  fr_res : ptr_array;
  fr_iw : ptr;
  fr_w : ptr
}.

(** The entry points of a function: numeric ([eval] on [double]),
    symbolic ([eval_sx] on [SXElem]), forward and reverse sparsity
    propagation (on [bvec_t]). *)
Inductive entry : Type := Numeric | Symbolic | SpFwd | SpRev.

Global Instance entry_eq_dec : EqDecision entry.
Proof. solve_decision. Defined.

Definition Dict : Type := list (string * string).

(** ** The base function

    [Function] is the handle of [function.hpp], which is not part of this
    file; the class lists what [map.cpp] asks of it.  [call] is an
    in-process invocation through one of the entry points (it may throw);
    [gen_call] is a run of the function's generated C code, which reports
    failure through a nonzero [int]; [gen_name] is the name under which
    the code generator calls it. *)
Class BaseUnit (Function world : Type) : Type := {
  n_in : Function → Z;
  n_out : Function → Z;
  nnz_in : Function → Z → Z;
  nnz_out : Function → Z → Z;
  sz_arg : Function → N;
  sz_res : Function → N;
  sz_iw : Function → N;
  sz_w : Function → N;
  forward : Function → Z → Function;
  reverse : Function → Z → Function;
  call : Function → entry → Frame → world → result world;
  gen_call : Function → Frame → world → Z * world;
  gen_name : Function → string
}.

(** [f.sz_work(sz_arg, sz_res, sz_iw, sz_w)] *)
Definition sz_work `{BaseUnit Function world} (f : Function) : N * N * N * N :=
  (sz_arg f, sz_res f, sz_iw f, sz_w f).

(** ** The map node *)

(** The two concrete classes: [Map], and [MapOmp] which derives from it. *)
Inductive MapClass : Type := ClsMap | ClsMapOmp.

Global Instance MapClass_eq_dec : EqDecision MapClass.
Proof. solve_decision. Defined.

(** Fields of [MapBase], together with the temporary work sizes that the
    node has registered with [FunctionInternal]. *)
Record MapBase (Function : Type) : Type := mkMapBase {
  cls : MapClass;
  name_ : string;
  f_ : Function;
  n_in_ : Z;
  n_out_ : Z;
  n_ : Z;
  sz_arg_tmp_ : N;
  sz_res_tmp_ : N;
  sz_iw_tmp_ : N;
  sz_w_tmp_ : N
}.
Arguments mkMapBase {Function}.
Arguments cls {Function}.
Arguments name_ {Function}.
Arguments f_ {Function}.
Arguments n_in_ {Function}.
Arguments n_out_ {Function}.
Arguments n_ {Function}.
Arguments sz_arg_tmp_ {Function}.
Arguments sz_res_tmp_ {Function}.
Arguments sz_iw_tmp_ {Function}.
Arguments sz_w_tmp_ {Function}.

Section Construction.
Context {Function world : Type} `{!BaseUnit Function world}.

(** [MapBase::MapBase(name, f, n)]; the class tag stands for the
    constructor of the derived class that runs it. *)
Definition MapBase_new (c : MapClass) (name : string) (f : Function) (n : Z)
  : MapBase Function :=
  mkMapBase c name f (n_in f) (n_out f) n 0%N 0%N 0%N 0%N.

(** Modelled from the spec: the accessor [n_in()] of the node is declared
    in [map.hpp], which is missing; the spec gives [n_in = base.n_in], the
    value the constructor stores in [n_in_]. *)
Definition MapBase_n_in (m : MapBase Function) : Z := n_in_ m.

(** Modelled from the spec: the accessor [n_out()] of the node is
    declared in [map.hpp], which is missing; the spec gives
    [n_out = base.n_out], the value the constructor stores in [n_out_]. *)
Definition MapBase_n_out (m : MapBase Function) : Z := n_out_ m.

(** Modelled from the spec: [alloc_arg] belongs to [FunctionInternal],
    which is missing.  A request registers a scratch requirement for the
    argument pointers; the node ends up requiring the largest amount
    requested. *)
Definition alloc_arg (sz : N) (m : MapBase Function) : MapBase Function :=
  mkMapBase (cls m) (name_ m) (f_ m) (n_in_ m) (n_out_ m) (n_ m)
    (N.max (sz_arg_tmp_ m) sz) (sz_res_tmp_ m) (sz_iw_tmp_ m) (sz_w_tmp_ m).

(** Modelled from the spec: [alloc_res] belongs to [FunctionInternal],
    which is missing; as [alloc_arg], for the result pointers. *)
Definition alloc_res (sz : N) (m : MapBase Function) : MapBase Function :=
  mkMapBase (cls m) (name_ m) (f_ m) (n_in_ m) (n_out_ m) (n_ m)
    (sz_arg_tmp_ m) (N.max (sz_res_tmp_ m) sz) (sz_iw_tmp_ m) (sz_w_tmp_ m).

(** Modelled from the spec: [alloc_w] belongs to [FunctionInternal],
    which is missing; as [alloc_arg], for the real work vector. *)
Definition alloc_w (sz : N) (m : MapBase Function) : MapBase Function :=
  mkMapBase (cls m) (name_ m) (f_ m) (n_in_ m) (n_out_ m) (n_ m)
    (sz_arg_tmp_ m) (sz_res_tmp_ m) (sz_iw_tmp_ m) (N.max (sz_w_tmp_ m) sz).

(** Modelled from the spec: [alloc_iw] belongs to [FunctionInternal],
    which is missing; as [alloc_arg], for the integer work vector. *)
Definition alloc_iw (sz : N) (m : MapBase Function) : MapBase Function :=
  mkMapBase (cls m) (name_ m) (f_ m) (n_in_ m) (n_out_ m) (n_ m)
    (sz_arg_tmp_ m) (sz_res_tmp_ m) (N.max (sz_iw_tmp_ m) sz) (sz_w_tmp_ m).

(** Modelled from the spec: [MapBase::init] is not defined in
    [map.cpp]; it recomputes derived quantities only and leaves the
    registration of scratch sizes to the strategy. *)
Definition MapBase_init (opts : Dict) (m : MapBase Function)
  : MapBase Function := m.

(** [Map::init] *)
Definition Map_init (opts : Dict) (m : MapBase Function) : MapBase Function :=
  let m := MapBase_init opts m in
  let m := alloc_arg (sz_arg (f_ m)) m in
  let m := alloc_res (sz_res (f_ m)) m in
  let m := alloc_w (sz_w (f_ m)) m in
  alloc_iw (sz_iw (f_ m)) m.

(** [MapOmp::init] *)
Definition MapOmp_init (opts : Dict) (m : MapBase Function)
  : MapBase Function :=
  let m := Map_init opts m in
  let m := alloc_arg (size_t_mul (sz_arg (f_ m)) (size_t_of_int (n_ m))) m in
  let m := alloc_res (size_t_mul (sz_res (f_ m)) (size_t_of_int (n_ m))) m in
  let m := alloc_w (size_t_mul (sz_w (f_ m)) (size_t_of_int (n_ m))) m in
  alloc_iw (size_t_mul (sz_iw (f_ m)) (size_t_of_int (n_ m))) m.

(** Modelled from the spec: [construct] belongs to [FunctionInternal];
    it finalizes the node by running the virtual [init]. *)
Definition construct (opts : Dict) (m : MapBase Function) : MapBase Function :=
  match cls m with
  | ClsMap => Map_init opts m
  | ClsMapOmp => MapOmp_init opts m
  end.

(** [MapBase::create] *)
Definition MapBase_create (name parallelization : string) (f : Function)
    (n : Z) (opts : Dict) : result (MapBase Function) :=
  let ret :=
    if String.eqb parallelization "serial" then
      Ok (MapBase_new ClsMap name f n)
    else if String.eqb parallelization "openmp" then
      Ok (MapBase_new ClsMapOmp name f n)
    else
      casadi_error ("Unknown parallelization: " +:+ parallelization) in
  match ret with
  | Ok node => Ok (construct opts node)
  | Raise msg => Raise msg
  end.

(** Modelled from the spec: the virtual [parallelization()] is declared
    in [map.hpp], which is missing; it names the strategy of the node,
    that is, the name under which [create] builds its class. *)
Definition parallelization (m : MapBase Function) : string :=
  match cls m with
  | ClsMap => "serial"
  | ClsMapOmp => "openmp"
  end.

(** Modelled from the spec: [Function::map] lives in [function.cpp],
    which is missing; it builds the map of the function through
    [MapBase::create]. *)
Definition Function_map (f : Function) (name parallelization : string)
    (n : Z) (opts : Dict) : result (MapBase Function) :=
  MapBase_create name parallelization f n opts.

(** [Map::get_forward_old] *)
Definition Map_get_forward_old (m : MapBase Function) (name : string) (nfwd : Z)
    (opts : Dict) : result (MapBase Function) :=
  let df := forward (f_ m) nfwd in
  Function_map df name (parallelization m) (n_ m) opts.

(** [Map::get_reverse_old] *)
Definition Map_get_reverse_old (m : MapBase Function) (name : string) (nadj : Z)
    (opts : Dict) : result (MapBase Function) :=
  let df := reverse (f_ m) nadj in
  Function_map df name (parallelization m) (n_ m) opts.

End Construction.

(** ** Evaluation

    The evaluators work on the caller's two pointer arrays and on the
    memory behind the data pointers, which only the base function reads
    and writes and which is therefore kept abstract ([world]).  Every
    invocation of the base function is recorded, with the replica index
    it was made for and whether it threw. *)

Record Mem (world : Type) : Type := mkMem {
  m_arg : ptr_array;
  m_res : ptr_array;
  m_world : world
}.
Arguments mkMem {world}.
Arguments m_arg {world}.
Arguments m_res {world}.
Arguments m_world {world}.

Record CallRec : Type := mkCallRec {
  cr_replica : Z;
  cr_frame : Frame;
  cr_failed : bool
}.

(** State, exception and call log. *)
Definition Eval (world A : Type) : Type :=
  Mem world → list CallRec * result (A * Mem world).

Global Instance Eval_ret {world} : MRet (Eval world) :=
  λ A a mem, ([], Ok (a, mem)).

Global Instance Eval_bind {world} : MBind (Eval world) :=
  λ A B k c mem,
    match c mem with
    | (t, Ok (a, mem')) =>
        match k a mem' with (t', r) => (t ++ t', r) end
    | (t, Raise msg) => (t, Raise msg)
    end.

(** [p ? ... : ...] on a pointer *)
Definition nonnull (p : ptr) : bool := negb (p =? 0).

Section Evaluation.
Context {Function world : Type} `{!BaseUnit Function world}.

(** [arg[j]] *)
Definition load_arg (j : Z) : Eval world ptr :=
  λ mem, ([], Ok (m_arg mem j, mem)).

(** [res[j]] *)
Definition load_res (j : Z) : Eval world ptr :=
  λ mem, ([], Ok (m_res mem j, mem)).

(** [arg[k] = v] *)
Definition store_arg (k : Z) (v : ptr) : Eval world unit :=
  λ mem, ([], Ok (tt, mkMem (store (m_arg mem) k v) (m_res mem) (m_world mem))).

(** [res[k] = v] *)
Definition store_res (k : Z) (v : ptr) : Eval world unit :=
  λ mem, ([], Ok (tt, mkMem (m_arg mem) (store (m_res mem) k v) (m_world mem))).

(** [f(arg + arg1, res + res1, iw, w)] through entry point [e], made for
    replica [i].  An exception of the base function is not caught.  The
    base function may use the entries behind its own pointers as scratch;
    the loops below never read those back, so the arrays are handed over
    by value. *)
Definition invoke (i : Z) (f : Function) (e : entry) (arg1 res1 : Z)
    (iw w : ptr) : Eval world unit :=
  λ mem,
    let fr := mkFrame arg1 res1 (shift (m_arg mem) arg1)
                (shift (m_res mem) res1) iw w in
    match call f e fr (m_world mem) with
    | Ok σ => ([mkCallRec i fr false], Ok (tt, mkMem (m_arg mem) (m_res mem) σ))
    | Raise msg => ([mkCallRec i fr true], Raise msg)
    end.

Fixpoint for_each (idx : list Z) (body : Z → Eval world unit) : Eval world unit :=
  match idx with
  | [] => mret tt
  | i :: idx' => body i ;; for_each idx' body
  end.

(** [for (int i=0; i<n; ++i) body] *)
Definition for_lt (n : Z) (body : Z → Eval world unit) : Eval world unit :=
  for_each (seqZ 0 n) body.

(** [Map::evalGen<T>]; the template argument selects the entry point of
    the base function that [f_(arg1, res1, iw, w, 0)] resolves to. *)
Definition Map_evalGen (T : entry) (m : MapBase Function) (iw w : ptr)
  : Eval world unit :=
  let n_in := n_in_ m in
  let n_out := n_out_ m in
  let arg1 := MapBase_n_in m in
  let res1 := MapBase_n_out m in
  for_lt (n_ m) (λ i,
    for_lt n_in (λ j,
      p ← load_arg j;
      store_arg (arg1 + j) (if nonnull p then p + i * nnz_in (f_ m) j else 0)) ;;
    for_lt n_out (λ j,
      p ← load_res j;
      store_res (res1 + j) (if nonnull p then p + i * nnz_out (f_ m) j else 0)) ;;
    invoke i (f_ m) T arg1 res1 iw w).

(** [Map::eval_sx] *)
Definition Map_eval_sx (m : MapBase Function) (iw w : ptr) : Eval world unit :=
  Map_evalGen Symbolic m iw w.

(** [Map::sp_fwd] *)
Definition Map_sp_fwd (m : MapBase Function) (iw w : ptr) : Eval world unit :=
  Map_evalGen SpFwd m iw w.

(** [Map::sp_rev] *)
Definition Map_sp_rev (m : MapBase Function) (iw w : ptr) : Eval world unit :=
  let n_in := n_in_ m in
  let n_out := n_out_ m in
  let arg1 := MapBase_n_in m in
  let res1 := MapBase_n_out m in
  for_lt (n_ m) (λ i,
    for_lt n_in (λ j,
      p ← load_arg j;
      store_arg (arg1 + j) (if nonnull p then p + i * nnz_in (f_ m) j else 0)) ;;
    for_lt n_out (λ j,
      p ← load_res j;
      store_res (res1 + j) (if nonnull p then p + i * nnz_out (f_ m) j else 0)) ;;
    invoke i (f_ m) SpRev arg1 res1 iw w).

(** [Map::eval] *)
Definition Map_eval (m : MapBase Function) (iw w : ptr) : Eval world unit :=
  Map_evalGen Numeric m iw w.

(** [MapOmp::eval].  [WITH_OPENMP] tells whether the macro is defined for
    the build.  In the branch compiled without it the OpenMP pragma has
    no effect and the loop runs in index order. *)
Definition MapOmp_eval (WITH_OPENMP : bool) (m : MapBase Function) (iw w : ptr)
  : Eval world unit :=
  if WITH_OPENMP then
    Map_eval m iw w
  else
    let '(sz_arg, sz_res, sz_iw, sz_w) := sz_work (f_ m) in
    for_lt (n_ m) (λ i,
      let arg_i := n_in_ m + Z.of_N sz_arg * i in
      for_lt (n_in_ m) (λ j,
        p ← load_arg j;
        store_arg (arg_i + j) (p + i * nnz_in (f_ m) j)) ;;
      let res_i := n_out_ m + Z.of_N sz_res * i in
      for_lt (n_out_ m) (λ j,
        p ← load_res j;
        store_res (res_i + j) (if nonnull p then p + i * nnz_out (f_ m) j else 0)) ;;
      let iw_i := iw + i * Z.of_N sz_iw in
      let w_i := w + i * Z.of_N sz_w in
      invoke i (f_ m) Numeric arg_i res_i iw_i w_i).

(** Virtual dispatch of an evaluation call on a node: [MapOmp] overrides
    [eval] and inherits the other three entry points from [Map]. *)
Definition evaluate (WITH_OPENMP : bool) (m : MapBase Function) (e : entry)
    (iw w : ptr) : Eval world unit :=
  match e with
  | Numeric =>
      match cls m with
      | ClsMap => Map_eval m iw w
      | ClsMapOmp => MapOmp_eval WITH_OPENMP m iw w
      end
  | Symbolic => Map_eval_sx m iw w
  | SpFwd => Map_sp_fwd m iw w
  | SpRev => Map_sp_rev m iw w
  end.

End Evaluation.

(** ** Generated code

    [generateBody] writes C text into [g.body].  The text is kept as the
    syntax tree of the statements written, one node per line of output;
    [show_body] prints the tree back as C (blanks inside a line are
    normalised) and [run_body] executes it. *)

Inductive expr : Type :=
| EVar (x : string)                 (* x *)
| ENum (z : Z)                      (* 42 *)
| EAdd (a b : expr)                 (* a+b *)
| EMul (a b : expr)                 (* a*b *)
| EIndex (x : string) (j : Z)       (* x[j] *)
| ECond (c a b : expr).             (* c ? a : b *)

Inductive stmt (Function : Type) : Type :=
| SDecl (ty x : string)                               (* ty x; *)
| SDeclInit (ty x : string) (e : expr)                (* ty x = e; *)
| SStore (x : string) (j : Z) (e : expr)              (* x[j] = e; *)
| SCall (f : Function) (arg res iw w : string)        (* f(arg, res, iw, w); *)
| SIfCallReturn (f : Function) (arg res iw w : string) (r : Z).
                                     (* if (f(arg, res, iw, w)) return r; *)
Arguments SDecl {Function}.
Arguments SDeclInit {Function}.
Arguments SStore {Function}.
Arguments SCall {Function}.
Arguments SIfCallReturn {Function}.

Inductive block (Function : Type) : Type :=
| BStmt (s : stmt Function)
| BPragma (text : string)                             (* #pragma text *)
| BFor (x : string) (n : Z) (body : list (stmt Function)).
                                     (* for (x=0; x<n; ++x) { body } *)
Arguments BStmt {Function}.
Arguments BPragma {Function}.
Arguments BFor {Function}.

(** Values of the generated code's variables: an [int] or data pointer,
    a pointer into the caller's [arg] array, a pointer into [res]. *)
Inductive val : Type :=
| VInt (z : Z)
| VArgPtr (off : Z)
| VResPtr (off : Z).

Record CState (world : Type) : Type := mkCState {
  c_env : gmap string val;
  c_arg : ptr_array;
  c_res : ptr_array;
  c_world : world
}.
Arguments mkCState {world}.
Arguments c_env {world}.
Arguments c_arg {world}.
Arguments c_res {world}.
Arguments c_world {world}.

Inductive flow (world : Type) : Type :=
| Next (st : CState world)            (* fell through to the next statement *)
| Return (r : Z) (st : CState world)  (* executed [return r;] *)
| Stuck.                              (* ill-typed or unbound variable *)
Arguments Next {world}.
Arguments Return {world}.
Arguments Stuck {world}.

Fixpoint show_expr (e : expr) : string :=
  match e with
  | EVar x => x
  | ENum z => pretty z
  | EAdd a b => show_expr a +:+ "+" +:+ show_expr b
  | EMul a b => show_expr a +:+ "*" +:+ show_expr b
  | EIndex x j => x +:+ "[" +:+ pretty j +:+ "]"
  | ECond c a b => show_expr c +:+ " ? " +:+ show_expr a +:+ " : " +:+ show_expr b
  end.

Section CodeGeneration.
Context {Function world : Type} `{!BaseUnit Function world}.

(** Modelled from the spec: [g(f, arg, res, iw, w)] belongs to
    [CodeGenerator], which is missing; it yields the call expression of
    the base function's generated code on the named arguments. *)
Definition codegen_call (f : Function) (arg res iw w : string) : string :=
  gen_name f +:+ "(" +:+ arg +:+ ", " +:+ res +:+ ", " +:+ iw +:+ ", " +:+ w +:+ ")".

Definition show_stmt (s : stmt Function) : string :=
  match s with
  | SDecl ty x => ty +:+ " " +:+ x +:+ ";"
  | SDeclInit ty x e => ty +:+ " " +:+ x +:+ " = " +:+ show_expr e +:+ ";"
  | SStore x j e => x +:+ "[" +:+ pretty j +:+ "] = " +:+ show_expr e +:+ ";"
  | SCall f a r iw w => codegen_call f a r iw w +:+ ";"
  | SIfCallReturn f a r iw w ret =>
      "if (" +:+ codegen_call f a r iw w +:+ ") return " +:+ pretty ret +:+ ";"
  end.

Definition show_block (b : block Function) : list string :=
  match b with
  | BStmt s => ["  " +:+ show_stmt s]
  | BPragma text => ["#pragma " +:+ text]
  | BFor x n body =>
      ["  for (" +:+ x +:+ "=0; " +:+ x +:+ "<" +:+ pretty n +:+ "; ++" +:+ x +:+ ") {"]
      ++ map (λ s, "    " +:+ show_stmt s) body
      ++ ["  }"]
  end.

Definition show_body (body : list (block Function)) : list string :=
  concat (map show_block body).

(** [Map::generateBody] *)
Definition Map_generateBody (m : MapBase Function) : list (block Function) :=
  [ BStmt (SDeclInit "const real_t**" "arg1" (EAdd (EVar "arg") (ENum (MapBase_n_in m))));
    BStmt (SDeclInit "real_t**" "res1" (EAdd (EVar "res") (ENum (MapBase_n_out m))));
    BStmt (SDecl "int" "i");
    BFor "i" (n_ m)
      (map (λ j, SStore "arg1" j
                   (ECond (EIndex "arg" j)
                      (EAdd (EIndex "arg" j) (EMul (EVar "i") (ENum (nnz_in (f_ m) j))))
                      (ENum 0)))
           (seqZ 0 (n_in_ m))
       ++ map (λ j, SStore "res1" j
                   (ECond (EIndex "res" j)
                      (EAdd (EIndex "res" j) (EMul (EVar "i") (ENum (nnz_out (f_ m) j))))
                      (ENum 0)))
           (seqZ 0 (n_out_ m))
       ++ [SIfCallReturn (f_ m) "arg1" "res1" "iw" "w" 1]) ].

(** [MapOmp::generateBody] *)
Definition MapOmp_generateBody (m : MapBase Function) : list (block Function) :=
  let '(sz_arg, sz_res, sz_iw, sz_w) := sz_work (f_ m) in
  [ BStmt (SDecl "int" "i");
    BPragma "omp parallel for";
    BFor "i" (n_ m)
      ([SDeclInit "const double**" "arg_i"
          (EAdd (EAdd (EVar "arg") (ENum (n_in_ m)))
                (EMul (ENum (Z.of_N sz_arg)) (EVar "i")))]
       ++ map (λ j, SStore "arg_i" j
                   (EAdd (EIndex "arg" j) (EMul (EVar "i") (ENum (nnz_in (f_ m) j)))))
           (seqZ 0 (n_in_ m))
       ++ [SDeclInit "double**" "res_i"
          (EAdd (EAdd (EVar "res") (ENum (n_out_ m)))
                (EMul (ENum (Z.of_N sz_res)) (EVar "i")))]
       ++ map (λ j, SStore "res_i" j
                   (ECond (EIndex "res" j)
                      (EAdd (EIndex "res" j) (EMul (EVar "i") (ENum (nnz_out (f_ m) j))))
                      (ENum 0)))
           (seqZ 0 (n_out_ m))
       ++ [SDeclInit "int*" "iw_i" (EAdd (EVar "iw") (EMul (EVar "i") (ENum (Z.of_N sz_iw))));
           SDeclInit "double*" "w_i" (EAdd (EVar "w") (EMul (EVar "i") (ENum (Z.of_N sz_w))));
           SCall (f_ m) "arg_i" "res_i" "iw_i" "w_i"]) ].

(** *** Running the generated body *)

Fixpoint eval_expr (st : CState world) (e : expr) : option val :=
  match e with
  | EVar x => c_env st !! x
  | ENum z => Some (VInt z)
  | EAdd a b =>
      match eval_expr st a, eval_expr st b with
      | Some (VInt x), Some (VInt y) => Some (VInt (x + y))
      | Some (VArgPtr o), Some (VInt y) => Some (VArgPtr (o + y))
      | Some (VResPtr o), Some (VInt y) => Some (VResPtr (o + y))
      | _, _ => None
      end
  | EMul a b =>
      match eval_expr st a, eval_expr st b with
      | Some (VInt x), Some (VInt y) => Some (VInt (x * y))
      | _, _ => None
      end
  | EIndex x j =>
      match c_env st !! x with
      | Some (VArgPtr o) => Some (VInt (c_arg st (o + j)))
      | Some (VResPtr o) => Some (VInt (c_res st (o + j)))
      | _ => None
      end
  | ECond c a b =>
      match eval_expr st c with
      | Some (VInt z) => if nonnull z then eval_expr st a else eval_expr st b
      | _ => None
      end
  end.

Definition set_var (x : string) (v : val) (st : CState world) : CState world :=
  mkCState (<[x := v]> (c_env st)) (c_arg st) (c_res st) (c_world st).

(** The call [f(arg, res, iw, w)] made in iteration [iter]: the status
    returned and the state after it. *)
Definition exec_call (iter : Z) (f : Function) (a r iw w : string)
    (st : CState world) : option (CallRec * Z * CState world) :=
  match c_env st !! a, c_env st !! r, c_env st !! iw, c_env st !! w with
  | Some (VArgPtr oa), Some (VResPtr or), Some (VInt piw), Some (VInt pw) =>
      let fr := mkFrame oa or (shift (c_arg st) oa) (shift (c_res st) or) piw pw in
      let '(status, σ) := gen_call f fr (c_world st) in
      Some (mkCallRec iter fr (nonnull status), status,
            mkCState (c_env st) (c_arg st) (c_res st) σ)
  | _, _, _, _ => None
  end.

Definition exec_stmt (iter : Z) (s : stmt Function) (st : CState world)
  : list CallRec * flow world :=
  match s with
  | SDecl ty x => ([], Next st)
  | SDeclInit ty x e =>
      match eval_expr st e with
      | Some v => ([], Next (set_var x v st))
      | None => ([], Stuck)
      end
  | SStore x j e =>
      match c_env st !! x, eval_expr st e with
      | Some (VArgPtr o), Some (VInt v) =>
          ([], Next (mkCState (c_env st) (store (c_arg st) (o + j) v) (c_res st) (c_world st)))
      | Some (VResPtr o), Some (VInt v) =>
          ([], Next (mkCState (c_env st) (c_arg st) (store (c_res st) (o + j) v) (c_world st)))
      | _, _ => ([], Stuck)
      end
  | SCall f a r iw w =>
      match exec_call iter f a r iw w st with
      | Some (rec, status, st') => ([rec], Next st')
      | None => ([], Stuck)
      end
  | SIfCallReturn f a r iw w ret =>
      match exec_call iter f a r iw w st with
      | Some (rec, status, st') =>
          if nonnull status then ([rec], Return ret st') else ([rec], Next st')
      | None => ([], Stuck)
      end
  end.

Fixpoint exec_stmts (iter : Z) (body : list (stmt Function)) (st : CState world)
  : list CallRec * flow world :=
  match body with
  | [] => ([], Next st)
  | s :: body' =>
      match exec_stmt iter s st with
      | (t, Next st') =>
          match exec_stmts iter body' st' with (t', fl) => (t ++ t', fl) end
      | (t, fl) => (t, fl)
      end
  end.

(** The iterations of [for (x=0; x<n; ++x) { body }] over the index
    values [idx], in order. *)
Fixpoint exec_for (x : string) (idx : list Z) (body : list (stmt Function))
    (st : CState world) : list CallRec * flow world :=
  match idx with
  | [] => ([], Next st)
  | k :: idx' =>
      match exec_stmts k body (set_var x (VInt k) st) with
      | (t, Next st') =>
          match exec_for x idx' body st' with (t', fl) => (t ++ t', fl) end
      | (t, fl) => (t, fl)
      end
  end.

(** A pragma is a no-op for this semantics: the loop it annotates runs
    in index order. *)
Definition exec_block (b : block Function) (st : CState world)
  : list CallRec * flow world :=
  match b with
  | BStmt s => exec_stmt 0 s st
  | BPragma _ => ([], Next st)
  | BFor x n body =>
      match exec_for x (seqZ 0 n) body (set_var x (VInt 0) st) with
      | (t, Next st') => (t, Next (set_var x (VInt (Z.max 0 n)) st'))
      | (t, fl) => (t, fl)
      end
  end.

Fixpoint exec_blocks (body : list (block Function)) (st : CState world)
  : list CallRec * flow world :=
  match body with
  | [] => ([], Next st)
  | b :: body' =>
      match exec_block b st with
      | (t, Next st') =>
          match exec_blocks body' st' with (t', fl) => (t ++ t', fl) end
      | (t, fl) => (t, fl)
      end
  end.

(** The generated function starts its body with its four parameters
    bound. *)
Definition run_body (body : list (block Function)) (arg res : ptr_array)
    (iw w : ptr) (σ : world) : list CallRec * flow world :=
  exec_blocks body
    (mkCState (<["arg" := VArgPtr 0]> (<["res" := VResPtr 0]>
                 (<["iw" := VInt iw]> (<["w" := VInt w]> ∅))))
              arg res σ).

(** Modelled from the spec: the function around the body is emitted by
    [FunctionInternal], which is missing; a body that runs to its end
    reports success, a [return r;] inside it reports [r]. *)
Definition body_status (fl : flow world) : option Z :=
  match fl with
  | Next _ => Some 0
  | Return r _ => Some r
  | Stuck => None
  end.

End CodeGeneration.

(** ** Closed forms used in the proofs *)

(** What a loop [for j: a[base + j] = g j (a[j])] leaves in the array. *)
Definition fill (g : Z → ptr → ptr) (base : Z) (idx : list Z) (a : ptr_array)
  : ptr_array :=
  foldl (λ a j, store a (base + j) (g j (a j))) a idx.

Section Views.
Context {Function world : Type} `{!BaseUnit Function world}.

(** One iteration of a replica loop: the pointers for replica [i] are
    written at [abase i] and [rbase i], computed by [ga] and [gr], and the
    base function is invoked on them with work vectors [iwf i] and
    [wf i].  The three evaluation loops of [map.cpp] are instances. *)
Definition replica_step (f : Function) (e : entry) (nin nout : Z)
    (ga gr : Z → Z → ptr → ptr) (abase rbase : Z → Z) (iwf wf : Z → ptr)
    (i : Z) : Eval world unit :=
  for_lt nin (λ j, p ← load_arg j; store_arg (abase i + j) (ga i j p)) ;;
  for_lt nout (λ j, p ← load_res j; store_res (rbase i + j) (gr i j p)) ;;
  invoke i f e (abase i) (rbase i) (iwf i) (wf i).

(** The data memory after running the recorded invocations, one after
    the other, and nothing else. *)
Fixpoint replay (f : Function) (e : entry) (t : list CallRec) (σ : world)
  : result world :=
  match t with
  | [] => Ok σ
  | r :: t' =>
      match call f e (cr_frame r) σ with
      | Ok σ' => replay f e t' σ'
      | Raise msg => Raise msg
      end
  end.

Definition result_world (r : result (unit * Mem world)) : result world :=
  match r with
  | Ok (_, mem) => Ok (m_world mem)
  | Raise msg => Raise msg
  end.

(** What a replica loop promises about a recorded invocation, for the
    caller's arrays [arg0] and [res0]. *)
Definition frame_ok (nin nout : Z) (ga gr : Z → Z → ptr → ptr)
    (abase rbase : Z → Z) (iwf wf : Z → ptr) (arg0 res0 : ptr_array)
    (r : CallRec) : Prop :=
  let i := cr_replica r in
  fr_arg_at (cr_frame r) = abase i
  ∧ fr_res_at (cr_frame r) = rbase i
  ∧ fr_iw (cr_frame r) = iwf i
  ∧ fr_w (cr_frame r) = wf i
  ∧ (∀ j, 0 ≤ j < nin → fr_arg (cr_frame r) j = ga i j (arg0 j))
  ∧ (∀ j, 0 ≤ j < nout → fr_res (cr_frame r) j = gr i j (res0 j)).

(** The pointer computations of the two layouts. *)
Definition guarded_in (f : Function) (i j : Z) (p : ptr) : ptr :=
  if nonnull p then p + i * nnz_in f j else 0.
Definition guarded_out (f : Function) (i j : Z) (p : ptr) : ptr :=
  if nonnull p then p + i * nnz_out f j else 0.
Definition unguarded_in (f : Function) (i j : Z) (p : ptr) : ptr :=
  p + i * nnz_in f j.

(** The statements inside the loop that [Map::generateBody] writes. *)
Definition Map_loop_body (m : MapBase Function) : list (stmt Function) :=
  map (λ j, SStore "arg1" j
              (ECond (EIndex "arg" j)
                 (EAdd (EIndex "arg" j) (EMul (EVar "i") (ENum (nnz_in (f_ m) j))))
                 (ENum 0)))
      (seqZ 0 (n_in_ m))
  ++ map (λ j, SStore "res1" j
              (ECond (EIndex "res" j)
                 (EAdd (EIndex "res" j) (EMul (EVar "i") (ENum (nnz_out (f_ m) j))))
                 (ENum 0)))
      (seqZ 0 (n_out_ m))
  ++ [SIfCallReturn (f_ m) "arg1" "res1" "iw" "w" 1].

(** The variables of that body, once its declarations have run. *)
Definition serial_env (m : MapBase Function) (iw w : ptr)
    (env : gmap string val) : Prop :=
  env !! "arg" = Some (VArgPtr 0)
  ∧ env !! "res" = Some (VResPtr 0)
  ∧ env !! "arg1" = Some (VArgPtr (n_in_ m))
  ∧ env !! "res1" = Some (VResPtr (n_out_ m))
  ∧ env !! "iw" = Some (VInt iw)
  ∧ env !! "w" = Some (VInt w).

(** The statements inside the loop that [MapOmp::generateBody] writes. *)
Definition MapOmp_loop_body (m : MapBase Function) : list (stmt Function) :=
  [SDeclInit "const double**" "arg_i"
     (EAdd (EAdd (EVar "arg") (ENum (n_in_ m)))
           (EMul (ENum (Z.of_N (sz_arg (f_ m)))) (EVar "i")))]
  ++ map (λ j, SStore "arg_i" j
              (EAdd (EIndex "arg" j) (EMul (EVar "i") (ENum (nnz_in (f_ m) j)))))
      (seqZ 0 (n_in_ m))
  ++ [SDeclInit "double**" "res_i"
     (EAdd (EAdd (EVar "res") (ENum (n_out_ m)))
           (EMul (ENum (Z.of_N (sz_res (f_ m)))) (EVar "i")))]
  ++ map (λ j, SStore "res_i" j
              (ECond (EIndex "res" j)
                 (EAdd (EIndex "res" j) (EMul (EVar "i") (ENum (nnz_out (f_ m) j))))
                 (ENum 0)))
      (seqZ 0 (n_out_ m))
  ++ [SDeclInit "int*" "iw_i"
        (EAdd (EVar "iw") (EMul (EVar "i") (ENum (Z.of_N (sz_iw (f_ m))))));
      SDeclInit "double*" "w_i"
        (EAdd (EVar "w") (EMul (EVar "i") (ENum (Z.of_N (sz_w (f_ m))))));
      SCall (f_ m) "arg_i" "res_i" "iw_i" "w_i"].


(** No [return] in a statement. *)
Definition falls_through (s : stmt Function) : bool :=
  match s with
  | SIfCallReturn _ _ _ _ _ _ => false
  | _ => true
  end.

End Views.

(** ** A small base function to run the definitions on

    [toy_nnz_in] and [toy_nnz_out] give the arities and the block sizes.
    The memory behind the data pointers is reduced to the number of
    invocations made so far, and the function fails on invocation number
    [toy_fail_at] (never, when that is negative). *)

Record Toy : Type := mkToy {
  toy_name : string;
  toy_nnz_in : list Z;
  toy_nnz_out : list Z;
  toy_sz_arg : N;
  toy_sz_res : N;
  toy_sz_iw : N;
  toy_sz_w : N;
  toy_fail_at : Z
}.

Definition toy_forward (t : Toy) (nfwd : Z) : Toy :=
  mkToy ("fwd_" +:+ toy_name t)
    (toy_nnz_in t ++ toy_nnz_out t ++ map (Z.mul nfwd) (toy_nnz_in t))
    (map (Z.mul nfwd) (toy_nnz_out t))
    (toy_sz_arg t + N.of_nat (length (toy_nnz_in t ++ toy_nnz_out t)))
    (toy_sz_res t) (toy_sz_iw t) (toy_sz_w t) (toy_fail_at t).

Definition toy_reverse (t : Toy) (nadj : Z) : Toy :=
  mkToy ("adj_" +:+ toy_name t)
    (toy_nnz_in t ++ toy_nnz_out t ++ map (Z.mul nadj) (toy_nnz_out t))
    (map (Z.mul nadj) (toy_nnz_in t))
    (toy_sz_arg t + N.of_nat (length (toy_nnz_in t ++ toy_nnz_out t)))
    (toy_sz_res t) (toy_sz_iw t) (toy_sz_w t) (toy_fail_at t).

Global Instance Toy_BaseUnit : BaseUnit Toy Z := {|
  n_in t := Z.of_nat (length (toy_nnz_in t));
  n_out t := Z.of_nat (length (toy_nnz_out t));
  nnz_in t j := nth (Z.to_nat j) (toy_nnz_in t) 0;
  nnz_out t j := nth (Z.to_nat j) (toy_nnz_out t) 0;
  sz_arg := toy_sz_arg;
  sz_res := toy_sz_res;
  sz_iw := toy_sz_iw;
  sz_w := toy_sz_w;
  forward := toy_forward;
  reverse := toy_reverse;
  call t e fr σ := if σ =? toy_fail_at t then Raise "toy failure" else Ok (σ + 1);
  gen_call t fr σ := (if σ =? toy_fail_at t then 1 else 0, σ + 1);
  gen_name := toy_name
|}.

(** One input of 3 nonzeros, one output of 2 nonzeros. *)
Definition toy32 (fail_at : Z) : Toy :=
  mkToy "f" [3] [2] 1 1 4 5 fail_at.

(** The array of a caller who passes one pointer. *)
Definition one_ptr (p : ptr) : ptr_array := λ k, if k =? 0 then p else 0.

(** The nodes that [create] returns for the two strategies over
    [toy32]. *)
Definition toy_serial (n fail_at : Z) : MapBase Toy :=
  Map_init [] (MapBase_new ClsMap "m" (toy32 fail_at) n).
Definition toy_openmp (n fail_at : Z) : MapBase Toy :=
  MapOmp_init [] (MapBase_new ClsMapOmp "m" (toy32 fail_at) n).

(** A caller's memory: one input pointer, one output pointer, and no
    invocation made yet. *)
Definition toy_mem (arg0 res0 : ptr) : Mem Z :=
  mkMem (one_ptr arg0) (one_ptr res0) 0.

Definition no_call : CallRec :=
  mkCallRec (-1) (mkFrame 0 0 (λ _, 0) (λ _, 0) 0 0) false.

(** * Properties *)

(** ** Construction *)

Section ConstructionFacts.
Context {Function world : Type} `{!BaseUnit Function world}.

Lemma construct_fields opts (m : MapBase Function) :
  cls (construct opts m) = cls m ∧ f_ (construct opts m) = f_ m
  ∧ n_ (construct opts m) = n_ m ∧ n_in_ (construct opts m) = n_in_ m
  ∧ n_out_ (construct opts m) = n_out_ m.
Proof. unfold construct. destruct (cls m) eqn:E; cbn; rewrite ?E; done. Qed.

Lemma create_serial name f n opts :
  MapBase_create name "serial" f n opts
  = Ok (Map_init opts (MapBase_new ClsMap name f n)).
Proof. reflexivity. Qed.

Lemma create_openmp name f n opts :
  MapBase_create name "openmp" f n opts
  = Ok (MapOmp_init opts (MapBase_new ClsMapOmp name f n)).
Proof. reflexivity. Qed.

Lemma create_unknown name par f n opts :
  par ≠ "serial" → par ≠ "openmp" →
  MapBase_create name par f n opts
  = Raise ("Unknown parallelization: " +:+ par).
Proof.
  intros Hs Ho. unfold MapBase_create.
  destruct (String.eqb_spec par "serial") as [->|_]; [done|].
  destruct (String.eqb_spec par "openmp") as [->|_]; done.
Qed.

Lemma create_of_class name (m : MapBase Function) f n opts :
  MapBase_create name (parallelization m) f n opts
  = Ok (construct opts (MapBase_new (cls m) name f n)).
Proof. unfold parallelization. destruct (cls m); reflexivity. Qed.

(** C2 (as amended).  [create] builds a node exactly for the strategy
    names "serial" (class [Map]) and "openmp" (class [MapOmp]); every
    other name, "parallel" and "gpu" among them, makes it throw
    "Unknown parallelization: <name>" without building anything. *)
Theorem create_accepts_serial_and_openmp name par (f : Function) n opts :
  (par = "serial" ∧ ∃ m, MapBase_create name par f n opts = Ok m ∧ cls m = ClsMap)
  ∨ (par = "openmp" ∧ ∃ m, MapBase_create name par f n opts = Ok m ∧ cls m = ClsMapOmp)
  ∨ (par ≠ "serial" ∧ par ≠ "openmp"
     ∧ MapBase_create name par f n opts = Raise ("Unknown parallelization: " +:+ par)).
Proof.
  destruct (decide (par = "serial")) as [->|Hs].
  { left. split; [done|]. eexists. split; [apply create_serial|done]. }
  destruct (decide (par = "openmp")) as [->|Ho].
  { right; left. split; [done|]. eexists. split; [apply create_openmp|done]. }
  right; right. auto using create_unknown.
Qed.

(** C8.  A node that [create] returns has the arities of its base
    function (and holds that function and the replica count given),
    whatever the strategy and the count. *)
Theorem create_preserves_arity name par (f : Function) n opts m :
  MapBase_create name par f n opts = Ok m →
  MapBase_n_in m = n_in f ∧ MapBase_n_out m = n_out f ∧ f_ m = f ∧ n_ m = n.
Proof.
  unfold MapBase_create, MapBase_n_in, MapBase_n_out.
  destruct (String.eqb par "serial"); [|destruct (String.eqb par "openmp")];
    cbn; intros Hm; inversion Hm; subst; clear Hm; done.
Qed.

Lemma size_t_mul_exact (s : N) (n : Z) :
  1 ≤ n → Z.of_N s * n < Z.of_N size_t_modulus →
  size_t_mul s (size_t_of_int n) = Z.to_N (Z.of_N s * n).
Proof.
  intros Hn Hlt. unfold size_t_mul, size_t_of_int.
  destruct (decide (s = 0%N)) as [->|Hs].
  { rewrite N.mul_0_l. cbn. rewrite Z.mul_0_l. reflexivity. }
  assert (n < Z.of_N size_t_modulus) by nia.
  rewrite Z.mod_small by lia.
  rewrite N.mod_small.
  - rewrite Z2N.inj_mul by lia. rewrite N2Z.id. reflexivity.
  - apply N2Z.inj_lt. rewrite N2Z.inj_mul. rewrite Z2N.id by lia. done.
Qed.

(** C3.  A freshly built [Map] node that runs [init] requires exactly the
    work sizes of its base function.  A freshly built [MapOmp] node that
    runs [init] requires each of them multiplied by the replica count,
    for a count of at least one and products that fit a [size_t]. *)
Theorem init_registers_work_sizes name (f : Function) n opts :
  1 ≤ n →
  Z.of_N (sz_arg f) * n < Z.of_N size_t_modulus →
  Z.of_N (sz_res f) * n < Z.of_N size_t_modulus →
  Z.of_N (sz_iw f) * n < Z.of_N size_t_modulus →
  Z.of_N (sz_w f) * n < Z.of_N size_t_modulus →
  let serial := Map_init opts (MapBase_new ClsMap name f n) in
  let openmp := MapOmp_init opts (MapBase_new ClsMapOmp name f n) in
  (sz_arg_tmp_ serial = sz_arg f ∧ sz_res_tmp_ serial = sz_res f
   ∧ sz_iw_tmp_ serial = sz_iw f ∧ sz_w_tmp_ serial = sz_w f)
  ∧ (Z.of_N (sz_arg_tmp_ openmp) = Z.of_N (sz_arg f) * n
     ∧ Z.of_N (sz_res_tmp_ openmp) = Z.of_N (sz_res f) * n
     ∧ Z.of_N (sz_iw_tmp_ openmp) = Z.of_N (sz_iw f) * n
     ∧ Z.of_N (sz_w_tmp_ openmp) = Z.of_N (sz_w f) * n).
Proof.
  intros Hn Ha Hr Hi Hw. cbn.
  rewrite !N.max_0_l.
  split; [done|].
  rewrite !size_t_mul_exact by done.
  repeat split; nia.
Qed.

(** C4.  [get_forward_old] and [get_reverse_old] return the node that
    [create] builds, under the strategy name of this node, over
    [f.forward(order)] and [f.reverse(order)] with the replica count of
    this node: a node of the same class, so that every evaluation call on
    the derivative node is the same call on the map of the derivative. *)
Theorem derivative_map_is_map_of_derivative (m : MapBase Function) name order opts :
  ∃ mf mr,
    Map_get_forward_old m name order opts = Ok mf
    ∧ Map_get_reverse_old m name order opts = Ok mr
    ∧ MapBase_create name (parallelization m) (forward (f_ m) order) (n_ m) opts = Ok mf
    ∧ MapBase_create name (parallelization m) (reverse (f_ m) order) (n_ m) opts = Ok mr
    ∧ (f_ mf = forward (f_ m) order ∧ n_ mf = n_ m ∧ cls mf = cls m)
    ∧ (f_ mr = reverse (f_ m) order ∧ n_ mr = n_ m ∧ cls mr = cls m)
    ∧ (∀ omp e iw w mem mapf,
         Function_map (forward (f_ m) order) name (parallelization m) (n_ m) opts = Ok mapf →
         evaluate omp mf e iw w mem = evaluate omp mapf e iw w mem)
    ∧ (∀ omp e iw w mem mapr,
         Function_map (reverse (f_ m) order) name (parallelization m) (n_ m) opts = Ok mapr →
         evaluate omp mr e iw w mem = evaluate omp mapr e iw w mem).
Proof.
  unfold Map_get_forward_old, Map_get_reverse_old, Function_map.
  rewrite !create_of_class.
  do 2 eexists. repeat split; try reflexivity;
    try (by destruct (construct_fields opts
           (MapBase_new (cls m) name (forward (f_ m) order) (n_ m)))
           as (?&?&?&?&?));
    try (by destruct (construct_fields opts
           (MapBase_new (cls m) name (reverse (f_ m) order) (n_ m)))
           as (?&?&?&?&?)).
  - intros omp e iw w mem mapf Hm. by inversion Hm.
  - intros omp e iw w mem mapr Hm. by inversion Hm.
Qed.

End ConstructionFacts.

(** ** Evaluation loops *)

Section LoopFacts.
Context {Function world : Type} `{!BaseUnit Function world}.

Lemma fill_cons g base j idx (a : ptr_array) :
  fill g base (j :: idx) a = fill g base idx (store a (base + j) (g j (a j))).
Proof. reflexivity. Qed.

Lemma fill_other g base idx (a : ptr_array) x :
  (∀ j, j ∈ idx → x ≠ base + j) → fill g base idx a x = a x.
Proof.
  revert a. induction idx as [|j idx IH]; intros a Hx; [done|].
  rewrite fill_cons, IH.
  - unfold store. destruct (Z.eqb_spec x (base + j)) as [E|_]; [|done].
    exfalso. eapply Hx; [left|done].
  - intros j' Hj'. apply Hx. by right.
Qed.

Lemma fill_at g base idx (a : ptr_array) j :
  NoDup idx → (∀ k, k ∈ idx → 0 ≤ k < base) → j ∈ idx →
  fill g base idx a (base + j) = g j (a j).
Proof.
  revert a. induction idx as [|k idx IH]; intros a Hnd Hrange Hj.
  { by apply elem_of_nil in Hj. }
  apply NoDup_cons in Hnd as [Hk Hnd].
  rewrite fill_cons.
  apply elem_of_cons in Hj as [->|Hj].
  - rewrite fill_other.
    + unfold store. by rewrite Z.eqb_refl.
    + intros j' Hj' E. assert (k = j') by lia. by subst.
  - rewrite IH; [|done| |done].
    + unfold store. destruct (Z.eqb_spec j (base + k)) as [E|_]; [|done].
      exfalso. assert (0 ≤ j < base) by (apply Hrange; by right).
      assert (0 ≤ k < base) by (apply Hrange; by left). lia.
    + intros k' Hk'. apply Hrange. by right.
Qed.

Lemma fill_seqZ_at g base n (a : ptr_array) j :
  n ≤ base → 0 ≤ j < n → fill g base (seqZ 0 n) a (base + j) = g j (a j).
Proof.
  intros Hb Hj. apply fill_at.
  - apply NoDup_seqZ.
  - intros k Hk%elem_of_seqZ. lia.
  - apply elem_of_seqZ. lia.
Qed.

Lemma fill_seqZ_below g base n (a : ptr_array) x :
  x < base → fill g base (seqZ 0 n) a x = a x.
Proof.
  intros Hx. apply fill_other. intros j Hj%elem_of_seqZ. lia.
Qed.

Lemma fill_arg_loop_run g base idx (mem : Mem world) :
  for_each idx (λ j, p ← load_arg j; store_arg (base + j) (g j p)) mem
  = ([], Ok (tt, mkMem (fill g base idx (m_arg mem)) (m_res mem) (m_world mem))).
Proof.
  revert mem. induction idx as [|j idx IH]; intros mem.
  { by destruct mem. }
  cbn. unfold mbind, Eval_bind. cbn. rewrite IH. reflexivity.
Qed.

Lemma fill_res_loop_run g base idx (mem : Mem world) :
  for_each idx (λ j, p ← load_res j; store_res (base + j) (g j p)) mem
  = ([], Ok (tt, mkMem (m_arg mem) (fill g base idx (m_res mem)) (m_world mem))).
Proof.
  revert mem. induction idx as [|j idx IH]; intros mem.
  { by destruct mem. }
  cbn. unfold mbind, Eval_bind. cbn. rewrite IH. reflexivity.
Qed.

(** One iteration, in closed form. *)
Lemma replica_step_run f e nin nout ga gr abase rbase iwf wf i (mem : Mem world) :
  replica_step f e nin nout ga gr abase rbase iwf wf i mem
  = let a' := fill (ga i) (abase i) (seqZ 0 nin) (m_arg mem) in
    let r' := fill (gr i) (rbase i) (seqZ 0 nout) (m_res mem) in
    let fr := mkFrame (abase i) (rbase i) (shift a' (abase i))
                (shift r' (rbase i)) (iwf i) (wf i) in
    match call f e fr (m_world mem) with
    | Ok σ => ([mkCallRec i fr false], Ok (tt, mkMem a' r' σ))
    | Raise msg => ([mkCallRec i fr true], Raise msg)
    end.
Proof.
  unfold replica_step, for_lt.
  unfold mbind at 1. unfold Eval_bind at 1. rewrite fill_arg_loop_run.
  unfold mbind at 1. unfold Eval_bind at 1. rewrite fill_res_loop_run.
  unfold invoke. cbn. by destruct (call f e _ _).
Qed.

Lemma Map_evalGen_steps T (m : MapBase Function) iw w :
  Map_evalGen T m iw w
  = for_lt (n_ m)
      (replica_step (f_ m) T (n_in_ m) (n_out_ m)
         (guarded_in (f_ m)) (guarded_out (f_ m))
         (λ _, n_in_ m) (λ _, n_out_ m) (λ _, iw) (λ _, w)).
Proof. reflexivity. Qed.

Lemma Map_sp_rev_steps (m : MapBase Function) iw w :
  Map_sp_rev m iw w
  = for_lt (n_ m)
      (replica_step (f_ m) SpRev (n_in_ m) (n_out_ m)
         (guarded_in (f_ m)) (guarded_out (f_ m))
         (λ _, n_in_ m) (λ _, n_out_ m) (λ _, iw) (λ _, w)).
Proof. reflexivity. Qed.

Lemma MapOmp_eval_steps (m : MapBase Function) iw w :
  MapOmp_eval false m iw w
  = for_lt (n_ m)
      (replica_step (f_ m) Numeric (n_in_ m) (n_out_ m)
         (unguarded_in (f_ m)) (guarded_out (f_ m))
         (λ i, n_in_ m + Z.of_N (sz_arg (f_ m)) * i)
         (λ i, n_out_ m + Z.of_N (sz_res (f_ m)) * i)
         (λ i, iw + i * Z.of_N (sz_iw (f_ m)))
         (λ i, w + i * Z.of_N (sz_w (f_ m)))).
Proof. reflexivity. Qed.

Lemma for_each_cons_run i idx (body : Z → Eval world unit) mem :
  for_each (i :: idx) body mem
  = match body i mem with
    | (t, Ok (_, mem1)) =>
        (t ++ (for_each idx body mem1).1, (for_each idx body mem1).2)
    | (t, Raise msg) => (t, Raise msg)
    end.
Proof.
  cbn. unfold mbind, Eval_bind.
  destruct (body i mem) as [t [[[] mem1]|msg]]; [|done].
  by destruct (for_each idx body mem1).
Qed.

(** Invariant rule for a loop in the evaluation monad. *)
Lemma for_each_inv (I : Mem world → Prop) (P : CallRec → Prop)
    (body : Z → Eval world unit) idx :
  (∀ i mem, i ∈ idx → I mem →
     Forall P (body i mem).1
     ∧ ∀ u mem', (body i mem).2 = Ok (u, mem') → I mem') →
  ∀ mem, I mem →
    Forall P (for_each idx body mem).1
    ∧ ∀ u mem', (for_each idx body mem).2 = Ok (u, mem') → I mem'.
Proof.
  induction idx as [|i idx IH]; intros Hbody mem HI.
  { cbn. split; [constructor|]. intros u mem' [= _ <-]. done. }
  rewrite for_each_cons_run.
  destruct (Hbody i mem) as [HP Hnext]; [by left|done|].
  destruct (body i mem) as [t [[[] mem1]|msg]]; cbn in *; [|by split].
  destruct (IH (λ j mem0 Hj, Hbody j mem0 (proj2 (elem_of_cons idx j i) (or_intror Hj)))
              mem1 (Hnext _ _ eq_refl)) as [HP' Hnext'].
  split; [by apply Forall_app|done].
Qed.

End LoopFacts.

Section StepFacts.
Context {Function world : Type} `{!BaseUnit Function world}.
Variables (f : Function) (e : entry) (nin nout : Z).
Variables (ga gr : Z → Z → ptr → ptr) (abase rbase : Z → Z) (iwf wf : Z → ptr).

Local Abbreviation step := (replica_step f e nin nout ga gr abase rbase iwf wf).

(** Every recorded invocation received the pointers the loop computed
    from the caller's arrays, as long as the slots written lie behind the
    caller's own entries. *)
Lemma steps_frames idx (mem : Mem world) :
  (∀ i, i ∈ idx → nin ≤ abase i ∧ nout ≤ rbase i) →
  Forall (frame_ok nin nout ga gr abase rbase iwf wf (m_arg mem) (m_res mem))
    (for_each idx step mem).1.
Proof.
  intros Hbase.
  apply (for_each_inv
           (λ mem', (∀ k, k < nin → m_arg mem' k = m_arg mem k)
                    ∧ (∀ k, k < nout → m_res mem' k = m_res mem k)));
    [|done].
  intros i mem1 Hi [Ha Hr]. destruct (Hbase i Hi) as [Hab Hrb].
  rewrite replica_step_run. cbn zeta.
  destruct (call f e _ (m_world mem1)) as [σ|msg]; cbn.
  - split.
    + constructor; [|constructor]. unfold frame_ok, shift; cbn.
      repeat split; try done; intros j Hj.
      * rewrite fill_seqZ_at by lia. f_equal. apply Ha. lia.
      * rewrite fill_seqZ_at by lia. f_equal. apply Hr. lia.
    + intros u mem' [= _ <-]. cbn. split; intros k Hk;
        rewrite fill_seqZ_below by lia; auto.
  - split; [|done].
    constructor; [|constructor]. unfold frame_ok, shift; cbn.
    repeat split; try done; intros j Hj.
    + rewrite fill_seqZ_at by lia. f_equal. apply Ha. lia.
    + rewrite fill_seqZ_at by lia. f_equal. apply Hr. lia.
Qed.

(** The evaluator reaches the data memory only through the invocations
    it records. *)
Lemma steps_replay idx (mem : Mem world) :
  result_world (for_each idx step mem).2
  = replay f e (for_each idx step mem).1 (m_world mem).
Proof.
  revert mem. induction idx as [|i idx IH]; intros mem; [done|].
  rewrite for_each_cons_run, replica_step_run. cbn zeta.
  destruct (call f e _ (m_world mem)) as [σ|msg] eqn:E; cbn; rewrite E; [|done].
  by rewrite IH.
Qed.

(** Shape of the call log of a loop over [a, a+1, ..]: replicas are
    invoked in index order, a failed invocation is the last one and makes
    the loop throw, and a loop that ends normally invoked every index. *)
Lemma steps_shape (len : nat) (a : Z) (mem : Mem world) :
  let run := for_each (seqZ a (Z.of_nat len)) step mem in
  (∀ r, r ∈ run.1 → cr_failed r = true →
     (∃ msg, run.2 = Raise msg)
     ∧ map cr_replica run.1 = seqZ a (cr_replica r + 1 - a))
  ∧ (is_ok run.2 = true →
     map cr_replica run.1 = seqZ a (Z.of_nat len)
     ∧ Forall (λ r, cr_failed r = false) run.1)
  ∧ (∀ msg, run.2 = Raise msg → ∃ r, r ∈ run.1 ∧ cr_failed r = true).
Proof.
  revert a mem. induction len as [|len IH]; intros a mem run.
  { subst run. cbn. split; [|split].
    - by intros r Hr%elem_of_nil.
    - done.
    - done. }
  subst run.
  rewrite seqZ_cons by lia.
  replace (Z.pred (Z.of_nat (S len))) with (Z.of_nat len) by lia.
  rewrite for_each_cons_run, replica_step_run. cbn zeta.
  destruct (call f e _ (m_world mem)) as [σ|msg]; cbn.
  - match goal with |- context [for_each _ _ ?m1] =>
      destruct (IH (Z.succ a) m1) as (IHa & IHb & IHc) end.
    split; [|split].
    + intros r [->|Hr]%elem_of_cons Hf; [done|].
      destruct (IHa r Hr Hf) as [Hraise Hmap]. split; [done|].
      rewrite Hmap.
      assert (cr_replica r ∈ seqZ (Z.succ a) (cr_replica r + 1 - Z.succ a)) as Hin.
      { rewrite <- Hmap. apply list_elem_of_fmap. by exists r. }
      apply elem_of_seqZ in Hin.
      rewrite (seqZ_cons a) by lia. do 2 f_equal. lia.
    + intros Hok. destruct (IHb Hok) as [Hmap Hall]. split.
      * by rewrite Hmap.
      * by constructor.
    + intros msg Hmsg. destruct (IHc msg Hmsg) as (r & Hr & Hf).
      exists r. split; [by right|done].
  - split; [|split].
    + intros r Hr Hf. apply list_elem_of_singleton in Hr as ->. cbn.
      split; [by eexists|].
      replace (a + 1 - a) with 1 by lia. done.
    + done.
    + intros msg' _. eexists. split; [by left|done].
Qed.

End StepFacts.

(** ** In-process evaluation *)

Section EvaluationFacts.
Context {Function world : Type} `{!BaseUnit Function world}.

(** Every entry point of a [Map] node, and every entry point of a
    [MapOmp] node that is inherited or compiled with [WITH_OPENMP], runs
    the serial loop. *)
Lemma evaluate_serial omp (m : MapBase Function) e iw w :
  cls m = ClsMap ∨ omp = true ∨ e ≠ Numeric →
  evaluate omp m e iw w
  = for_lt (n_ m)
      (replica_step (f_ m) e (n_in_ m) (n_out_ m)
         (guarded_in (f_ m)) (guarded_out (f_ m))
         (λ _, n_in_ m) (λ _, n_out_ m) (λ _, iw) (λ _, w)).
Proof.
  intros Hcase. unfold evaluate.
  destruct e; try reflexivity.
  destruct (cls m); [reflexivity|].
  destruct omp; [reflexivity|].
  by destruct Hcase as [?|[?|?]].
Qed.

(** The numeric entry point of a [MapOmp] node compiled without
    [WITH_OPENMP] runs the loop with one slice per replica. *)
Lemma evaluate_openmp (m : MapBase Function) iw w :
  cls m = ClsMapOmp →
  evaluate false m Numeric iw w
  = for_lt (n_ m)
      (replica_step (f_ m) Numeric (n_in_ m) (n_out_ m)
         (unguarded_in (f_ m)) (guarded_out (f_ m))
         (λ i, n_in_ m + Z.of_N (sz_arg (f_ m)) * i)
         (λ i, n_out_ m + Z.of_N (sz_res (f_ m)) * i)
         (λ i, iw + i * Z.of_N (sz_iw (f_ m)))
         (λ i, w + i * Z.of_N (sz_w (f_ m)))).
Proof. intros Hc. unfold evaluate. rewrite Hc. reflexivity. Qed.

(** Whatever the class, the build and the entry point, an evaluation is
    a replica loop that guards the output pointers and writes behind the
    caller's entries. *)
Lemma evaluate_is_replica_loop omp (m : MapBase Function) e iw w :
  ∃ ga abase rbase iwf wf,
    evaluate omp m e iw w
    = for_lt (n_ m)
        (replica_step (f_ m) e (n_in_ m) (n_out_ m) ga (guarded_out (f_ m))
           abase rbase iwf wf)
    ∧ ∀ i, 0 ≤ i → n_in_ m ≤ abase i ∧ n_out_ m ≤ rbase i.
Proof.
  destruct (decide (cls m = ClsMap ∨ omp = true ∨ e ≠ Numeric)) as [Hs|Hp].
  - do 5 eexists. split; [by apply evaluate_serial|]. intros; cbn; lia.
  - assert (cls m = ClsMapOmp ∧ omp = false ∧ e = Numeric) as (Hc & -> & ->).
    { destruct (cls m), omp, e; try done; exfalso; apply Hp; auto. }
    do 5 eexists. split; [by apply evaluate_openmp|]. intros; cbn; lia.
Qed.

(** The invocations made by the serial loop, in full: replica [i]
    receives [arg[j] + i*nnz_in(j)] and [res[j] + i*nnz_out(j)], a null
    pointer staying null, and the caller's work vectors. *)
Lemma serial_frames omp (m : MapBase Function) e iw w (mem : Mem world) :
  cls m = ClsMap ∨ omp = true ∨ e ≠ Numeric →
  Forall (frame_ok (n_in_ m) (n_out_ m) (guarded_in (f_ m)) (guarded_out (f_ m))
            (λ _, n_in_ m) (λ _, n_out_ m) (λ _, iw) (λ _, w)
            (m_arg mem) (m_res mem))
    (evaluate omp m e iw w mem).1.
Proof.
  intros Hs. rewrite evaluate_serial by done.
  apply steps_frames. intros; lia.
Qed.


(** A run without failure invokes the replicas [0 .. n-1], once each and
    in this order. *)
Lemma evaluate_ok_replicas omp (m : MapBase Function) e iw w (mem : Mem world) :
  0 ≤ n_ m →
  is_ok (evaluate omp m e iw w mem).2 = true →
  map cr_replica (evaluate omp m e iw w mem).1 = seqZ 0 (n_ m).
Proof.
  intros Hn Hok.
  destruct (evaluate_is_replica_loop omp m e iw w)
    as (ga & abase & rbase & iwf & wf & Heq & _).
  rewrite Heq in *. unfold for_lt in *.
  rewrite <- (Z2Nat.id (n_ m)) in * by done.
  by apply steps_shape.
Qed.

(** A serial run without failure is [n] invocations of the base function,
    for the replicas [0 .. n-1] in this order, each on the pointers of its
    own blocks; the data memory it leaves is the one these invocations
    leave. *)
Lemma serial_run_is_n_invocations omp (m : MapBase Function) e iw w
    (mem : Mem world) :
  cls m = ClsMap ∨ omp = true ∨ e ≠ Numeric →
  0 ≤ n_ m →
  is_ok (evaluate omp m e iw w mem).2 = true →
  map cr_replica (evaluate omp m e iw w mem).1 = seqZ 0 (n_ m)
  ∧ Forall (frame_ok (n_in_ m) (n_out_ m) (guarded_in (f_ m)) (guarded_out (f_ m))
              (λ _, n_in_ m) (λ _, n_out_ m) (λ _, iw) (λ _, w)
              (m_arg mem) (m_res mem))
      (evaluate omp m e iw w mem).1
  ∧ result_world (evaluate omp m e iw w mem).2
    = replay (f_ m) e (evaluate omp m e iw w mem).1 (m_world mem).
Proof.
  intros Hs Hn Hok. split; [by apply evaluate_ok_replicas|].
  split; [by apply serial_frames|].
  rewrite evaluate_serial by done. apply steps_replay.
Qed.

(** On a pointer that is not null the two layouts compute the same
    input pointer. *)
Lemma unguarded_in_nonnull (f : Function) i j p :
  nonnull p = true → unguarded_in f i j p = guarded_in f i j p.
Proof. intros Hp. unfold unguarded_in, guarded_in. by rewrite Hp. Qed.

(** Slices of [sz] elements laid out at [base + sz*i] do not overlap. *)
Lemma slices_disjoint (base : Z) (sz : N) i i' k k' :
  i ≠ i' → 0 ≤ k < Z.of_N sz → 0 ≤ k' < Z.of_N sz →
  base + Z.of_N sz * i + k ≠ base + Z.of_N sz * i' + k'.
Proof. intros Hi Hk Hk'. nia. Qed.

(** C6.  When the caller passes a null pointer for output [j], every
    invocation of the base function, in either strategy, under either
    build and through every entry point, receives a null pointer in
    output slot [j]; and the data memory changes through these
    invocations only: the evaluator itself reads and writes nothing
    behind a data pointer. *)
Theorem null_output_stays_null omp (m : MapBase Function) e iw w
    (mem : Mem world) j :
  0 ≤ j < n_out_ m →
  m_res mem j = 0 →
  Forall (λ r, fr_res (cr_frame r) j = 0) (evaluate omp m e iw w mem).1
  ∧ result_world (evaluate omp m e iw w mem).2
    = replay (f_ m) e (evaluate omp m e iw w mem).1 (m_world mem).
Proof.
  intros Hj Hnull.
  destruct (evaluate_is_replica_loop omp m e iw w)
    as (ga & abase & rbase & iwf & wf & -> & Hbase).
  split; [|apply steps_replay].
  eapply Forall_impl.
  - apply steps_frames. intros i Hi%elem_of_seqZ. apply Hbase. lia.
  - intros r (_ & _ & _ & _ & _ & Hres). rewrite (Hres j Hj), Hnull. done.
Qed.

(** C10.  In the serial strategy, when the caller passes a null pointer
    for input [j], every invocation of the base function receives a null
    pointer in input slot [j], through each of the four entry points. *)
Theorem serial_null_input_stays_null omp (m : MapBase Function) e iw w
    (mem : Mem world) j :
  cls m = ClsMap →
  0 ≤ j < n_in_ m →
  m_arg mem j = 0 →
  Forall (λ r, fr_arg (cr_frame r) j = 0) (evaluate omp m e iw w mem).1.
Proof.
  intros Hc Hj Hnull.
  eapply Forall_impl.
  - apply (serial_frames omp m e iw w mem). by left.
  - intros r (_ & _ & _ & _ & Harg & _). rewrite (Harg j Hj), Hnull. done.
Qed.

(** In-process half of C5. *)
Lemma serial_failure_aborts_in_process omp (m : MapBase Function) e iw w
    (mem : Mem world) r :
  r ∈ (evaluate omp m e iw w mem).1 → cr_failed r = true →
  (∃ msg, (evaluate omp m e iw w mem).2 = Raise msg)
  ∧ map cr_replica (evaluate omp m e iw w mem).1 = seqZ 0 (cr_replica r + 1).
Proof.
  destruct (evaluate_is_replica_loop omp m e iw w)
    as (ga & abase & rbase & iwf & wf & -> & _).
  unfold for_lt. intros Hr Hf.
  destruct (Z_le_gt_dec 0 (n_ m)) as [Hn|Hn].
  - assert (∃ len, n_ m = Z.of_nat len) as [len Hlen]
      by (exists (Z.to_nat (n_ m)); lia).
    rewrite Hlen in *.
    destruct (steps_shape (f_ m) e (n_in_ m) (n_out_ m) ga (guarded_out (f_ m))
                abase rbase iwf wf len 0 mem) as (Ha & _).
    destruct (Ha r Hr Hf) as [Hraise Hmap].
    split; [done|]. rewrite Hmap. f_equal. lia.
  - rewrite seqZ_nil in Hr by lia. by apply elem_of_nil in Hr.
Qed.

End EvaluationFacts.

(** ** Generated code *)

Section GeneratedFacts.
Context {Function world : Type} `{!BaseUnit Function world}.

Lemma exec_stmts_silent k (s : stmt Function) body (st st' : CState world) :
  exec_stmt k s st = ([], Next st') →
  exec_stmts k (s :: body) st = exec_stmts k body st'.
Proof. intros Hs. cbn. rewrite Hs. by destruct (exec_stmts k body st'). Qed.

Lemma exec_guarded_arg_stores (f : Function) k x base js rest (st : CState world) :
  c_env st !! x = Some (VArgPtr base) →
  c_env st !! "arg" = Some (VArgPtr 0) →
  c_env st !! "i" = Some (VInt k) →
  exec_stmts k
    (map (λ j, SStore x j
                 (ECond (EIndex "arg" j)
                    (EAdd (EIndex "arg" j) (EMul (EVar "i") (ENum (nnz_in f j))))
                    (ENum 0))) js ++ rest) st
  = exec_stmts k rest
      (mkCState (c_env st) (fill (guarded_in f k) base js (c_arg st))
         (c_res st) (c_world st)).
Proof.
  revert st. induction js as [|j js IH]; intros st Hx Harg Hi.
  { by destruct st. }
  rewrite fill_cons. cbn [map app].
  rewrite (exec_stmts_silent _ _ _ st
             (mkCState (c_env st)
                (store (c_arg st) (base + j) (guarded_in f k j (c_arg st j)))
                (c_res st) (c_world st))).
  - by rewrite IH.
  - unfold exec_stmt. rewrite Hx. cbn [eval_expr]. rewrite Harg, Hi.
    unfold guarded_in. cbn. rewrite !Z.add_0_l.
    by destruct (nonnull (c_arg st j)).
Qed.

Lemma exec_guarded_res_stores (f : Function) k x base js rest (st : CState world) :
  c_env st !! x = Some (VResPtr base) →
  c_env st !! "res" = Some (VResPtr 0) →
  c_env st !! "i" = Some (VInt k) →
  exec_stmts k
    (map (λ j, SStore x j
                 (ECond (EIndex "res" j)
                    (EAdd (EIndex "res" j) (EMul (EVar "i") (ENum (nnz_out f j))))
                    (ENum 0))) js ++ rest) st
  = exec_stmts k rest
      (mkCState (c_env st) (c_arg st)
         (fill (guarded_out f k) base js (c_res st)) (c_world st)).
Proof.
  revert st. induction js as [|j js IH]; intros st Hx Hres Hi.
  { by destruct st. }
  rewrite fill_cons. cbn [map app].
  rewrite (exec_stmts_silent _ _ _ st
             (mkCState (c_env st) (c_arg st)
                (store (c_res st) (base + j) (guarded_out f k j (c_res st j)))
                (c_world st))).
  - by rewrite IH.
  - unfold exec_stmt. rewrite Hx. cbn [eval_expr]. rewrite Hres, Hi.
    unfold guarded_out. cbn. rewrite !Z.add_0_l.
    by destruct (nonnull (c_res st j)).
Qed.

(** One iteration of the serial loop, in closed form. *)
Lemma Map_loop_body_run (m : MapBase Function) iw w k (st : CState world) :
  serial_env m iw w (c_env st) →
  c_env st !! "i" = Some (VInt k) →
  exec_stmts k (Map_loop_body m) st
  = let a' := fill (guarded_in (f_ m) k) (n_in_ m) (seqZ 0 (n_in_ m)) (c_arg st) in
    let r' := fill (guarded_out (f_ m) k) (n_out_ m) (seqZ 0 (n_out_ m)) (c_res st) in
    let fr := mkFrame (n_in_ m) (n_out_ m) (shift a' (n_in_ m))
                (shift r' (n_out_ m)) iw w in
    let st' := mkCState (c_env st) a' r' (gen_call (f_ m) fr (c_world st)).2 in
    ([mkCallRec k fr (nonnull (gen_call (f_ m) fr (c_world st)).1)],
     if nonnull (gen_call (f_ m) fr (c_world st)).1 then Return 1 st' else Next st').
Proof.
  intros (Harg & Hres & Harg1 & Hres1 & Hiw & Hw) Hi.
  unfold Map_loop_body.
  rewrite (exec_guarded_arg_stores _ _ _ (n_in_ m)) by done.
  rewrite (exec_guarded_res_stores _ _ _ (n_out_ m)) by done.
  cbn. unfold exec_call. cbn. rewrite Harg1, Hres1, Hiw, Hw.
  destruct (gen_call _ _ _) as [status σ]. cbn.
  by destruct (nonnull status).
Qed.

Lemma serial_env_set_i (m : MapBase Function) iw w env v :
  serial_env m iw w env → serial_env m iw w (<["i" := v]> env).
Proof.
  unfold serial_env. intros (?&?&?&?&?&?).
  rewrite !lookup_insert_ne by done. done.
Qed.

(** Shape of a run of the serial loop over [a, a+1, ..]: it never gets
    stuck, a failed call is the last one and makes the body return 1, and
    a loop that runs to its end called every index. *)
Lemma Map_loop_shape (m : MapBase Function) iw w (len : nat) a (st : CState world) :
  serial_env m iw w (c_env st) →
  let run := exec_for "i" (seqZ a (Z.of_nat len)) (Map_loop_body m) st in
  (∀ r, r ∈ run.1 → cr_failed r = true →
     (∃ st', run.2 = Return 1 st')
     ∧ map cr_replica run.1 = seqZ a (cr_replica r + 1 - a))
  ∧ ((∃ st', run.2 = Next st'
             ∧ map cr_replica run.1 = seqZ a (Z.of_nat len)
             ∧ Forall (λ r, cr_failed r = false) run.1)
     ∨ (∃ st' r, run.2 = Return 1 st' ∧ r ∈ run.1 ∧ cr_failed r = true)).
Proof.
  revert a st. induction len as [|len IH]; intros a st Henv run.
  { subst run. cbn. split.
    - by intros r Hr%elem_of_nil.
    - left. by eexists. }
  subst run.
  rewrite seqZ_cons by lia.
  replace (Z.pred (Z.of_nat (S len))) with (Z.of_nat len) by lia.
  cbn [exec_for].
  rewrite (Map_loop_body_run m iw w a);
    [|by apply serial_env_set_i|by apply lookup_insert_eq].
  cbn zeta.
  destruct (nonnull (gen_call _ _ _).1) eqn:Hstatus.
  - cbn. split.
    + intros r Hr Hf. apply list_elem_of_singleton in Hr as ->. cbn.
      split; [by eexists|]. by replace (a + 1 - a) with 1 by lia.
    + right. do 2 eexists. split; [done|]. split; [by left|done].
  - match goal with |- context [exec_for _ _ _ ?st1] =>
      destruct (IH (Z.succ a) st1) as (IHa & IHb);
        [by apply serial_env_set_i|] end.
    destruct (exec_for _ _ _ _) as [t fl]. cbn in *. split.
    + intros r [->|Hr]%elem_of_cons Hf; [done|].
      destruct (IHa r Hr Hf) as [Hret Hmap]. split; [done|].
      rewrite Hmap.
      assert (cr_replica r ∈ seqZ (Z.succ a) (cr_replica r + 1 - Z.succ a)) as Hin.
      { rewrite <- Hmap. apply list_elem_of_fmap. by exists r. }
      apply elem_of_seqZ in Hin.
      rewrite (seqZ_cons a) by lia. do 2 f_equal. lia.
    + destruct IHb as [(st' & -> & Hmap & Hall)|(st' & r & -> & Hr & Hf)].
      * left. eexists. split; [done|]. split; [by rewrite Hmap|by constructor].
      * right. exists st', r. split; [done|]. split; [by right|done].
Qed.

Lemma Map_generateBody_loop (m : MapBase Function) :
  Map_generateBody m
  = [ BStmt (SDeclInit "const real_t**" "arg1" (EAdd (EVar "arg") (ENum (MapBase_n_in m))));
      BStmt (SDeclInit "real_t**" "res1" (EAdd (EVar "res") (ENum (MapBase_n_out m))));
      BStmt (SDecl "int" "i");
      BFor "i" (n_ m) (Map_loop_body m) ].
Proof. reflexivity. Qed.

(** The generated serial body is its loop, run with the two shifted
    pointers declared. *)
Lemma Map_generateBody_run (m : MapBase Function) arg res iw w (σ : world) :
  ∃ st, serial_env m iw w (c_env st)
    ∧ run_body (Map_generateBody m) arg res iw w σ
      = match exec_for "i" (seqZ 0 (n_ m)) (Map_loop_body m) st with
        | (t, Next st') => (t ++ [], Next (set_var "i" (VInt (Z.max 0 (n_ m))) st'))
        | (t, fl) => (t, fl)
        end.
Proof.
  rewrite Map_generateBody_loop. unfold run_body.
  exists (set_var "i" (VInt 0)
            (mkCState
               (<["res1" := VResPtr (0 + MapBase_n_out m)]>
                  (<["arg1" := VArgPtr (0 + MapBase_n_in m)]>
                     (<["arg" := VArgPtr 0]> (<["res" := VResPtr 0]>
                        (<["iw" := VInt iw]> (<["w" := VInt w]> ∅))))))
               arg res σ)).
  split.
  - apply serial_env_set_i. unfold serial_env. cbn.
    unfold MapBase_n_in, MapBase_n_out. rewrite !Z.add_0_l.
    repeat split; by simplify_map_eq.
  - cbn. rewrite lookup_insert_eq. cbn.
    rewrite lookup_insert_ne by done. rewrite lookup_insert_ne by done.
    rewrite lookup_insert_eq. cbn.
    unfold set_var. cbn.
    destruct (exec_for _ _ _ _) as [t [st'| |]]; reflexivity.
Qed.

(** Generated-code half of C5. *)
Lemma serial_failure_aborts_generated (m : MapBase Function) arg res iw w
    (σ : world) r :
  r ∈ (run_body (Map_generateBody m) arg res iw w σ).1 → cr_failed r = true →
  body_status (run_body (Map_generateBody m) arg res iw w σ).2 = Some 1
  ∧ map cr_replica (run_body (Map_generateBody m) arg res iw w σ).1
    = seqZ 0 (cr_replica r + 1).
Proof.
  destruct (Map_generateBody_run m arg res iw w σ) as (st & Henv & ->).
  destruct (Z_le_gt_dec 0 (n_ m)) as [Hn|Hn].
  - assert (∃ len, n_ m = Z.of_nat len) as [len Hlen]
      by (exists (Z.to_nat (n_ m)); lia).
    rewrite Hlen.
    destruct (Map_loop_shape m iw w len 0 st Henv) as (Ha & _).
    destruct (exec_for _ _ _ _) as [t fl]. cbn in Ha.
    intros Hr Hf.
    assert (r ∈ t) as Hrt.
    { destruct fl; cbn in Hr; [|done..]. by rewrite app_nil_r in Hr. }
    destruct (Ha r Hrt Hf) as [[st' ->] Hmap]. cbn.
    split; [done|]. rewrite Hmap. f_equal. lia.
  - rewrite seqZ_nil by lia. cbn. by intros Hr%elem_of_nil.
Qed.

(** A body without [if (...) return] never returns. *)
Lemma exec_stmt_falls_through k (s : stmt Function) (st : CState world) :
  falls_through s = true → ∀ r st', (exec_stmt k s st).2 ≠ Return r st'.
Proof.
  intros Hs r st'. destruct s; cbn; try done.
  - by destruct (eval_expr st e).
  - by destruct (c_env st !! x) as [[]|], (eval_expr st e) as [[]|].
  - by destruct (exec_call k f arg res iw w st) as [[[] ]|].
Qed.

Lemma exec_stmts_falls_through k (body : list (stmt Function)) (st : CState world) :
  forallb falls_through body = true →
  ∀ r st', (exec_stmts k body st).2 ≠ Return r st'.
Proof.
  revert st. induction body as [|s body IH]; intros st Hb r st'; [done|].
  cbn in Hb. apply andb_prop in Hb as [Hs Hb]. cbn.
  pose proof (exec_stmt_falls_through k s st Hs) as Hne.
  destruct (exec_stmt k s st) as [t [st1| |]]; cbn in *.
  - specialize (IH st1 Hb r st'). by destruct (exec_stmts k body st1).
  - apply Hne.
  - done.
Qed.

Lemma exec_for_falls_through x idx (body : list (stmt Function)) (st : CState world) :
  forallb falls_through body = true →
  ∀ r st', (exec_for x idx body st).2 ≠ Return r st'.
Proof.
  intros Hb. revert st. induction idx as [|k idx IH]; intros st r st'; [done|].
  cbn.
  pose proof (exec_stmts_falls_through k body (set_var x (VInt k) st) Hb) as Hne.
  destruct (exec_stmts k body _) as [t [st1| |]]; cbn in *.
  - specialize (IH st1 r st'). by destruct (exec_for x idx body st1).
  - apply Hne.
  - done.
Qed.

Lemma falls_through_map (g : Z → stmt Function) js :
  (∀ j, falls_through (g j) = true) → forallb falls_through (map g js) = true.
Proof. intros Hg. induction js as [|j js IH]; cbn; [done|]. by rewrite Hg, IH. Qed.

(** The body that [MapOmp::generateBody] writes never executes a
    [return]: whatever the calls to the base function report, the
    generated function does not report failure. *)
Lemma MapOmp_generateBody_never_returns (m : MapBase Function) arg res iw w
    (σ : world) r st' :
  (run_body (MapOmp_generateBody m) arg res iw w σ).2 ≠ Return r st'.
Proof.
  unfold run_body, MapOmp_generateBody, sz_work. cbn.
  match goal with |- context [exec_for ?x ?idx ?body ?st] =>
    pose proof (exec_for_falls_through x idx body st) as Hne;
    destruct (exec_for x idx body st) as [t [st1| |]] end; cbn in *; try done.
  apply Hne.
  repeat first [ rewrite forallb_app
               | rewrite falls_through_map by done
               | progress cbn [forallb falls_through andb] ].
  reflexivity.
Qed.

End GeneratedFacts.

(** ** Failure of a replica *)

Section FailureFacts.
Context {Function world : Type} `{!BaseUnit Function world}.

(** C5.  In the serial strategy, in process (through any entry point) as
    well as in the generated code: if the invocation made for replica [k]
    fails, the replicas invoked are exactly [0 .. k], so none after [k],
    and the call fails (it throws, respectively returns 1). *)
Theorem serial_failure_aborts omp (m : MapBase Function) e iw w
    (mem : Mem world) arg res (σ : world) :
  cls m = ClsMap →
  (∀ r, r ∈ (evaluate omp m e iw w mem).1 → cr_failed r = true →
     (∃ msg, (evaluate omp m e iw w mem).2 = Raise msg)
     ∧ map cr_replica (evaluate omp m e iw w mem).1 = seqZ 0 (cr_replica r + 1))
  ∧ (∀ r, r ∈ (run_body (Map_generateBody m) arg res iw w σ).1 →
       cr_failed r = true →
       body_status (run_body (Map_generateBody m) arg res iw w σ).2 = Some 1
       ∧ map cr_replica (run_body (Map_generateBody m) arg res iw w σ).1
         = seqZ 0 (cr_replica r + 1)).
Proof.
  intros _. split.
  - intros r. apply serial_failure_aborts_in_process.
  - intros r. apply serial_failure_aborts_generated.
Qed.

End FailureFacts.

(** ** The definitions at work on [toy32] *)

(** The text written for the two strategies, three replicas. *)
Example Map_generateBody_text :
  show_body (world:=Z) (Map_generateBody (toy_serial 3 (-1)))
  = [ "  const real_t** arg1 = arg+1;";
      "  real_t** res1 = res+1;";
      "  int i;";
      "  for (i=0; i<3; ++i) {";
      "    arg1[0] = arg[0] ? arg[0]+i*3 : 0;";
      "    res1[0] = res[0] ? res[0]+i*2 : 0;";
      "    if (f(arg1, res1, iw, w)) return 1;";
      "  }" ].
Proof. vm_compute. reflexivity. Qed.

Example MapOmp_generateBody_text :
  show_body (world:=Z) (MapOmp_generateBody (toy_openmp 3 (-1)))
  = [ "  int i;";
      "#pragma omp parallel for";
      "  for (i=0; i<3; ++i) {";
      "    const double** arg_i = arg+1+1*i;";
      "    arg_i[0] = arg[0]+i*3;";
      "    double** res_i = res+1+1*i;";
      "    res_i[0] = res[0] ? res[0]+i*2 : 0;";
      "    int* iw_i = iw+i*4;";
      "    double* w_i = w+i*5;";
      "    f(arg_i, res_i, iw_i, w_i);";
      "  }" ].
Proof. vm_compute. reflexivity. Qed.

(** Three replicas over blocks of 3 inputs and 2 outputs: replica [i]
    reads from [100 + 3i] and writes to [200 + 2i]. *)
Example Map_eval_blocks :
  map (λ r, (cr_replica r, fr_arg (cr_frame r) 0, fr_res (cr_frame r) 0))
    (evaluate false (toy_serial 3 (-1)) Numeric 1000 2000 (toy_mem 100 200)).1
  = [(0, 100, 200); (1, 103, 202); (2, 106, 204)].
Proof. vm_compute. reflexivity. Qed.

(** C1, at the failing input.  A build without [WITH_OPENMP], a [MapOmp]
    node of two replicas over [toy32], and a caller who passes a null
    pointer for the input: the invocation for replica 1 receives the
    input pointer [0 + 1*3], which is not null, where the serial node on
    the same input hands over a null pointer. *)
Theorem MapOmp_eval_offsets_null_input :
  map (λ r, fr_arg (cr_frame r) 0)
    (evaluate false (toy_openmp 2 (-1)) Numeric 1000 2000 (toy_mem 0 200)).1
  = [0; 3]
  ∧ map (λ r, fr_arg (cr_frame r) 0)
      (evaluate false (toy_serial 2 (-1)) Numeric 1000 2000 (toy_mem 0 200)).1
    = [0; 0].
Proof. split; vm_compute; reflexivity. Qed.

(** C7, at the failing input.  A build with [WITH_OPENMP] and a [MapOmp]
    node of three replicas over [toy32] ([sz_arg = sz_res = 1],
    [sz_iw = 4], [sz_w = 5]): every replica is handed the same pointer
    arrays at offset 1 and the same work vectors [iw] and [w], the layout
    of the serial node, and not the slices at [1 + i], [iw + 4i] and
    [w + 5i] that the build without the macro hands over. *)
Theorem MapOmp_eval_with_openmp_shares_slices :
  let layout (r : CallRec) :=
    (fr_arg_at (cr_frame r), fr_res_at (cr_frame r),
     fr_iw (cr_frame r), fr_w (cr_frame r)) in
  map layout
    (evaluate true (toy_openmp 3 (-1)) Numeric 1000 2000 (toy_mem 100 200)).1
  = [(1, 1, 1000, 2000); (1, 1, 1000, 2000); (1, 1, 1000, 2000)]
  ∧ map layout
      (evaluate true (toy_openmp 3 (-1)) Numeric 1000 2000 (toy_mem 100 200)).1
    = map layout
        (evaluate true (toy_serial 3 (-1)) Numeric 1000 2000 (toy_mem 100 200)).1
  ∧ map layout
      (evaluate false (toy_openmp 3 (-1)) Numeric 1000 2000 (toy_mem 100 200)).1
    = [(1, 1, 1000, 2000); (2, 2, 1004, 2005); (3, 3, 1008, 2010)].
Proof. repeat split; vm_compute; reflexivity. Qed.

(** C9, at the failing input.  The body generated for a [MapOmp] node of
    three replicas over a base function whose generated code reports
    failure on its second call: the three calls are made, the second one
    reports failure, and the body runs to its end, so that the generated
    function reports success. *)
Theorem MapOmp_generateBody_drops_failure :
  let run :=
    run_body (MapOmp_generateBody (toy_openmp 3 1))
      (one_ptr 100) (one_ptr 200) 1000 2000 0 in
  map (λ r, (cr_replica r, cr_failed r)) run.1
  = [(0, false); (1, true); (2, false)]
  ∧ body_status run.2 = Some 0.
Proof. split; vm_compute; reflexivity. Qed.

(** C2, as stated, fails: under the name "parallel" nothing is built. *)
Lemma create_rejects_parallel_name :
  ¬ (∀ par,
       is_ok (MapBase_create (world:=Z) "m" par (toy32 (-1)) 3 []) = true
       ↔ par = "serial" ∨ par = "parallel").
Proof.
  intros Hclaim. destruct (Hclaim "parallel") as [_ Hok].
  specialize (Hok (or_intror eq_refl)). vm_compute in Hok. discriminate.
Qed.

(** ** Instances of the theorems *)

Lemma create_preserves_arity_witness :
  MapBase_create (world:=Z) "m" "openmp" (toy32 (-1)) 3 [] = Ok (toy_openmp 3 (-1))
  ∧ MapBase_n_in (toy_openmp 3 (-1)) = 1
  ∧ MapBase_n_out (toy_openmp 3 (-1)) = 1
  ∧ f_ (toy_openmp 3 (-1)) = toy32 (-1)
  ∧ n_ (toy_openmp 3 (-1)) = 3.
Proof.
  split; [reflexivity|].
  exact (create_preserves_arity (world:=Z) "m" "openmp" (toy32 (-1)) 3 []
           (toy_openmp 3 (-1)) eq_refl).
Defined.

Lemma init_registers_work_sizes_witness :
  (sz_arg_tmp_ (toy_serial 3 (-1)) = 1%N ∧ sz_res_tmp_ (toy_serial 3 (-1)) = 1%N
   ∧ sz_iw_tmp_ (toy_serial 3 (-1)) = 4%N ∧ sz_w_tmp_ (toy_serial 3 (-1)) = 5%N)
  ∧ (Z.of_N (sz_arg_tmp_ (toy_openmp 3 (-1))) = 3
     ∧ Z.of_N (sz_res_tmp_ (toy_openmp 3 (-1))) = 3
     ∧ Z.of_N (sz_iw_tmp_ (toy_openmp 3 (-1))) = 12
     ∧ Z.of_N (sz_w_tmp_ (toy_openmp 3 (-1))) = 15).
Proof.
  exact (init_registers_work_sizes (world:=Z) "m" (toy32 (-1)) 3 []
           ltac:(vm_compute; discriminate)
           ltac:(vm_compute; reflexivity) ltac:(vm_compute; reflexivity)
           ltac:(vm_compute; reflexivity) ltac:(vm_compute; reflexivity)).
Defined.

Lemma serial_failure_aborts_witness :
  let run := evaluate false (toy_serial 3 1) Numeric 1000 2000 (toy_mem 100 200) in
  let gen := run_body (Map_generateBody (toy_serial 3 1))
               (one_ptr 100) (one_ptr 200) 1000 2000 0 in
  cls (toy_serial 3 1) = ClsMap
  ∧ ((∃ msg, run.2 = Raise msg) ∧ map cr_replica run.1 = [0; 1])
  ∧ (body_status gen.2 = Some 1 ∧ map cr_replica gen.1 = [0; 1]).
Proof.
  intros run gen.
  destruct (serial_failure_aborts false (toy_serial 3 1) Numeric 1000 2000
              (toy_mem 100 200) (one_ptr 100) (one_ptr 200) 0 eq_refl)
    as [Hrun Hgen].
  split; [reflexivity|]. split.
  - apply (Hrun (nth 1 run.1 no_call)); [|reflexivity].
    apply list_elem_of_In, nth_In. vm_compute. repeat constructor.
  - apply (Hgen (nth 1 gen.1 no_call)); [|reflexivity].
    apply list_elem_of_In, nth_In. vm_compute. repeat constructor.
Defined.

Lemma null_output_stays_null_witness :
  let run := evaluate false (toy_openmp 3 (-1)) Numeric 1000 2000 (toy_mem 100 0) in
  (0 ≤ 0 < n_out_ (toy_openmp 3 (-1)) ∧ m_res (toy_mem 100 0) 0 = 0)
  ∧ Forall (λ r, fr_res (cr_frame r) 0 = 0) run.1
  ∧ result_world run.2 = replay (toy32 (-1)) Numeric run.1 0.
Proof.
  intros run.
  assert (0 ≤ 0 < n_out_ (toy_openmp 3 (-1))) as Hj
    by (vm_compute; split; discriminate || reflexivity).
  split; [split; [exact Hj|reflexivity]|].
  exact (null_output_stays_null false (toy_openmp 3 (-1)) Numeric 1000 2000
           (toy_mem 100 0) 0 Hj eq_refl).
Defined.

Lemma serial_null_input_stays_null_witness :
  let run := evaluate false (toy_serial 3 (-1)) SpRev 1000 2000 (toy_mem 0 200) in
  (cls (toy_serial 3 (-1)) = ClsMap ∧ 0 ≤ 0 < n_in_ (toy_serial 3 (-1))
   ∧ m_arg (toy_mem 0 200) 0 = 0)
  ∧ Forall (λ r, fr_arg (cr_frame r) 0 = 0) run.1.
Proof.
  intros run.
  assert (0 ≤ 0 < n_in_ (toy_serial 3 (-1))) as Hj
    by (vm_compute; split; discriminate || reflexivity).
  split; [split; [reflexivity|split; [exact Hj|reflexivity]]|].
  exact (serial_null_input_stays_null false (toy_serial 3 (-1)) SpRev 1000 2000
           (toy_mem 0 200) 0 eq_refl Hj eq_refl).
Defined.

(** * Further properties of the evaluators *)

Section StepExtent.
Context {Function world : Type} `{!BaseUnit Function world}.
Variables (f : Function) (e : entry) (nin nout : Z).
Variables (ga gr : Z → Z → ptr → ptr) (abase rbase : Z → Z) (iwf wf : Z → ptr).

Local Abbreviation step := (replica_step f e nin nout ga gr abase rbase iwf wf).


(** A replica loop writes the [nin] and [nout] slots of each replica and
    nothing else in the caller's arrays. *)
Lemma steps_writes_confined idx (mem : Mem world) u mem' :
  (for_each idx step mem).2 = Ok (u, mem') →
  (∀ k, (∀ i, i ∈ idx → ¬ (abase i ≤ k < abase i + nin)) →
        m_arg mem' k = m_arg mem k)
  ∧ (∀ k, (∀ i, i ∈ idx → ¬ (rbase i ≤ k < rbase i + nout)) →
          m_res mem' k = m_res mem k).
Proof.
  revert mem. induction idx as [|i idx IH]; intros mem.
  { cbn. intros [= _ <-]. done. }
  rewrite for_each_cons_run, replica_step_run. cbn zeta.
  destruct (call f e _ (m_world mem)) as [σ|msg]; cbn; [|done].
  intros Hrun. apply IH in Hrun as [Ha Hr]. cbn in Ha, Hr.
  split; intros k Hk.
  - rewrite Ha by (intros i' Hi'; apply Hk; by right).
    apply fill_other. intros j Hj%elem_of_seqZ ->.
    apply (Hk i); [by left|lia].
  - rewrite Hr by (intros i' Hi'; apply Hk; by right).
    apply fill_other. intros j Hj%elem_of_seqZ ->.
    apply (Hk i); [by left|lia].
Qed.

End StepExtent.

Section LayoutFacts.
Context {Function world : Type} `{!BaseUnit Function world}.




(** X4.  Whatever the class, the build and the entry point, an
    evaluation that does not throw leaves the caller's own entries of
    both pointer arrays, [arg[0 .. n_in)] and [res[0 .. n_out)], as they
    were. *)
Theorem caller_entries_preserved omp (m : MapBase Function) e iw w
    (mem : Mem world) u mem' :
  (evaluate omp m e iw w mem).2 = Ok (u, mem') →
  (∀ k, k < n_in_ m → m_arg mem' k = m_arg mem k)
  ∧ (∀ k, k < n_out_ m → m_res mem' k = m_res mem k).
Proof.
  destruct (evaluate_is_replica_loop omp m e iw w)
    as (ga & abase & rbase & iwf & wf & -> & Hbase).
  unfold for_lt. intros Hrun.
  apply steps_writes_confined in Hrun as [Ha Hr].
  split; intros k Hk.
  - apply Ha. intros i Hi%elem_of_seqZ. destruct (Hbase i); lia.
  - apply Hr. intros i Hi%elem_of_seqZ. destruct (Hbase i); lia.
Qed.


(** X6.  Whatever the class, the build and the entry point, the
    evaluator throws exactly when an invocation of the base function
    threw: it raises nothing of its own and swallows nothing. *)
Theorem evaluate_throws_iff_invocation_failed omp (m : MapBase Function) e
    iw w (mem : Mem world) :
  (∃ msg, (evaluate omp m e iw w mem).2 = Raise msg)
  ↔ (∃ r, r ∈ (evaluate omp m e iw w mem).1 ∧ cr_failed r = true).
Proof.
  destruct (evaluate_is_replica_loop omp m e iw w)
    as (ga & abase & rbase & iwf & wf & -> & _).
  unfold for_lt.
  destruct (Z_le_gt_dec 0 (n_ m)) as [Hn|Hn].
  - assert (∃ len, n_ m = Z.of_nat len) as [len ->]
      by (exists (Z.to_nat (n_ m)); lia).
    destruct (steps_shape (f_ m) e (n_in_ m) (n_out_ m) ga (guarded_out (f_ m))
                abase rbase iwf wf len 0 mem) as (Ha & _ & Hc).
    split.
    + intros [msg Hmsg]. eauto.
    + intros (r & Hr & Hf). by destruct (Ha r Hr Hf).
  - rewrite seqZ_nil by lia. cbn. split.
    + by intros [msg Hmsg].
    + by intros (r & Hr%elem_of_nil & _).
Qed.

(** X7.  Whatever the class, the build and the entry point, an
    evaluation that does not throw has invoked the base function once
    for each replica [0 .. n-1], in this order, and no invocation
    failed. *)
Theorem evaluate_ok_invokes_all omp (m : MapBase Function) e iw w
    (mem : Mem world) :
  0 ≤ n_ m →
  is_ok (evaluate omp m e iw w mem).2 = true →
  map cr_replica (evaluate omp m e iw w mem).1 = seqZ 0 (n_ m)
  ∧ Forall (λ r, cr_failed r = false) (evaluate omp m e iw w mem).1.
Proof.
  intros Hn.
  destruct (evaluate_is_replica_loop omp m e iw w)
    as (ga & abase & rbase & iwf & wf & -> & _).
  unfold for_lt.
  assert (∃ len, n_ m = Z.of_nat len) as [len ->]
    by (exists (Z.to_nat (n_ m)); lia).
  by destruct (steps_shape (f_ m) e (n_in_ m) (n_out_ m) ga (guarded_out (f_ m))
                 abase rbase iwf wf len 0 mem) as (_ & Hb & _).
Qed.

End LayoutFacts.

(** * Further properties of the generated code *)

Section GeneratedLayout.
Context {Function world : Type} `{!BaseUnit Function world}.






(** The body of [MapOmp::generateBody] is its loop, run on the
    parameters of the generated function. *)
Lemma MapOmp_generateBody_run (m : MapBase Function) arg res iw w (σ : world) :
  run_body (MapOmp_generateBody m) arg res iw w σ
  = match exec_for "i" (seqZ 0 (n_ m)) (MapOmp_loop_body m)
            (set_var "i" (VInt 0)
               (mkCState
                  (<["arg" := VArgPtr 0]> (<["res" := VResPtr 0]>
                     (<["iw" := VInt iw]> (<["w" := VInt w]> ∅))))
                  arg res σ)) with
    | (t, Next st') => (t ++ [], Next (set_var "i" (VInt (Z.max 0 (n_ m))) st'))
    | (t, fl) => (t, fl)
    end.
Proof.
  unfold run_body, MapOmp_generateBody, sz_work. cbn.
  fold (MapOmp_loop_body m).
  by destruct (exec_for _ _ _ _) as [t [st'| |]].
Qed.


(** The body of [Map::generateBody] is its loop, run on the parameters
    of the generated function and the two shifted pointers. *)
Lemma Map_generateBody_run_from (m : MapBase Function) arg res iw w (σ : world) :
  run_body (Map_generateBody m) arg res iw w σ
  = match exec_for "i" (seqZ 0 (n_ m)) (Map_loop_body m)
            (set_var "i" (VInt 0)
               (mkCState
                  (<["res1" := VResPtr (0 + MapBase_n_out m)]>
                     (<["arg1" := VArgPtr (0 + MapBase_n_in m)]>
                        (<["arg" := VArgPtr 0]> (<["res" := VResPtr 0]>
                           (<["iw" := VInt iw]> (<["w" := VInt w]> ∅))))))
                  arg res σ)) with
    | (t, Next st') => (t ++ [], Next (set_var "i" (VInt (Z.max 0 (n_ m))) st'))
    | (t, fl) => (t, fl)
    end.
Proof.
  rewrite Map_generateBody_loop. unfold run_body.
  cbn. rewrite lookup_insert_eq. cbn.
  rewrite lookup_insert_ne by done. rewrite lookup_insert_ne by done.
  rewrite lookup_insert_eq. cbn.
  unfold set_var. cbn.
  by destruct (exec_for _ _ _ _) as [t [st'| |]].
Qed.

End GeneratedLayout.

Section GeneratedTheorems.
Context {Function world : Type} `{!BaseUnit Function world}.


(** X9.  The body written by [Map::generateBody] always runs: it either
    reaches its end, reporting success, after one call for each replica
    [0 .. n-1] in this order, none of which reported failure; or it
    returns 1, and then some call reported failure. *)
Theorem Map_generated_status (m : MapBase Function) arg res iw w (σ : world) :
  (body_status (run_body (Map_generateBody m) arg res iw w σ).2 = Some 0
   ∧ map cr_replica (run_body (Map_generateBody m) arg res iw w σ).1
     = seqZ 0 (n_ m)
   ∧ Forall (λ r, cr_failed r = false)
       (run_body (Map_generateBody m) arg res iw w σ).1)
  ∨ (body_status (run_body (Map_generateBody m) arg res iw w σ).2 = Some 1
     ∧ ∃ r, r ∈ (run_body (Map_generateBody m) arg res iw w σ).1
            ∧ cr_failed r = true).
Proof.
  destruct (Map_generateBody_run m arg res iw w σ) as (st & Henv & ->).
  assert (∃ len, seqZ 0 (n_ m) = seqZ 0 (Z.of_nat len)) as [len ->].
  { destruct (Z_le_gt_dec 0 (n_ m)).
    - exists (Z.to_nat (n_ m)). by rewrite Z2Nat.id.
    - exists 0%nat. by rewrite seqZ_nil by lia. }
  destruct (Map_loop_shape m iw w len 0 st Henv) as (_ & Hb).
  destruct (exec_for _ _ _ _) as [t fl]. cbn in Hb.
  destruct Hb as [(st' & -> & Hmap & Hall)|(st' & r & -> & Hr & Hf)].
  - left. cbn. rewrite app_nil_r. done.
  - right. cbn. split; [done|]. by exists r.
Qed.


End GeneratedTheorems.

Section EdgeFacts.
Context {Function world : Type} `{!BaseUnit Function world}.

(** What [create] puts into the node it returns. *)
Lemma create_ok_fields name par (f : Function) n opts m :
  MapBase_create name par f n opts = Ok m →
  n_in_ m = n_in f ∧ n_out_ m = n_out f ∧ f_ m = f ∧ n_ m = n.
Proof.
  unfold MapBase_create.
  destruct (String.eqb par "serial"); [|destruct (String.eqb par "openmp")];
    cbn; intros Hm; inversion Hm; subst; clear Hm; done.
Qed.

(** X11.  [MapOmp::eval] compiled without [WITH_OPENMP], over a base
    function whose pointer-array sizes cover its arities: an evaluation
    that does not throw has written only inside the [n * sz_arg] entries
    behind the caller's inputs and the [n * sz_res] entries behind the
    caller's outputs, the amounts that [MapOmp::init] asks for. *)
Theorem openmp_scratch_extent (m : MapBase Function) iw w (mem : Mem world)
    u mem' :
  cls m = ClsMapOmp →
  n_in_ m ≤ Z.of_N (sz_arg (f_ m)) →
  n_out_ m ≤ Z.of_N (sz_res (f_ m)) →
  (evaluate false m Numeric iw w mem).2 = Ok (u, mem') →
  (∀ k, ¬ (n_in_ m ≤ k < n_in_ m + Z.of_N (sz_arg (f_ m)) * n_ m) →
        m_arg mem' k = m_arg mem k)
  ∧ (∀ k, ¬ (n_out_ m ≤ k < n_out_ m + Z.of_N (sz_res (f_ m)) * n_ m) →
          m_res mem' k = m_res mem k).
Proof.
  intros Hc Hin Hout. rewrite evaluate_openmp by done. unfold for_lt.
  intros Hrun. apply steps_writes_confined in Hrun as [Ha Hr].
  split; intros k Hk.
  - apply Ha. intros i Hi%elem_of_seqZ Hslice. apply Hk. nia.
  - apply Hr. intros i Hi%elem_of_seqZ Hslice. apply Hk. nia.
Qed.

(** X12.  [create] does not check the replica count.  A node built with
    a count of zero or less evaluates to nothing: no invocation is made,
    the caller's arrays and the data memory are left as they were and
    nothing is thrown; the generated body of either strategy makes no
    call and reports success. *)
Theorem nonpositive_count_is_a_no_op name par (f : Function) n opts m :
  MapBase_create name par f n opts = Ok m →
  n ≤ 0 →
  (∀ omp e iw w (mem : Mem world),
     evaluate omp m e iw w mem = ([], Ok (tt, mem)))
  ∧ (∀ arg res iw w (σ : world),
       (run_body (Map_generateBody m) arg res iw w σ).1 = []
       ∧ body_status (run_body (Map_generateBody m) arg res iw w σ).2 = Some 0)
  ∧ (∀ arg res iw w (σ : world),
       (run_body (MapOmp_generateBody m) arg res iw w σ).1 = []
       ∧ body_status (run_body (MapOmp_generateBody m) arg res iw w σ).2 = Some 0).
Proof.
  intros Hm Hn.
  apply create_ok_fields in Hm as (_ & _ & _ & Hcount).
  assert (seqZ 0 (n_ m) = []) as Hnil by (apply seqZ_nil; lia).
  split; [|split].
  - intros omp e iw w mem.
    destruct (evaluate_is_replica_loop omp m e iw w)
      as (ga & abase & rbase & iwf & wf & -> & _).
    unfold for_lt. by rewrite Hnil.
  - intros arg res iw w σ.
    rewrite Map_generateBody_run_from, Hnil. done.
  - intros arg res iw w σ.
    rewrite MapOmp_generateBody_run, Hnil. done.
Qed.

(** X13.  Derivative nodes compose.  The node that [get_forward_old]
    returns has the arities of [f.forward(order)], and asking it in turn
    for a forward or a reverse derivative gives the node that [create]
    builds, under the strategy name and with the replica count of the
    first node, over the derivative of the derivative. *)
Theorem derivative_maps_compose (m : MapBase Function) name1 order1 name2
    order2 opts m1 :
  Map_get_forward_old m name1 order1 opts = Ok m1 →
  MapBase_n_in m1 = n_in (forward (f_ m) order1)
  ∧ MapBase_n_out m1 = n_out (forward (f_ m) order1)
  ∧ Map_get_forward_old m1 name2 order2 opts
    = MapBase_create name2 (parallelization m)
        (forward (forward (f_ m) order1) order2) (n_ m) opts
  ∧ Map_get_reverse_old m1 name2 order2 opts
    = MapBase_create name2 (parallelization m)
        (reverse (forward (f_ m) order1) order2) (n_ m) opts.
Proof.
  unfold Map_get_forward_old at 1. unfold Function_map.
  intros Hm1.
  destruct (create_ok_fields _ _ _ _ _ _ Hm1) as (Hin & Hout & Hf & Hn).
  rewrite create_of_class in Hm1. injection Hm1 as <-.
  split; [done|]. split; [done|].
  destruct (construct_fields opts
              (MapBase_new (cls m) name1 (forward (f_ m) order1) (n_ m)))
    as (Hcls & _).
  unfold Map_get_forward_old, Map_get_reverse_old, Function_map, parallelization.
  rewrite Hf, Hn, Hcls. done.
Qed.

End EdgeFacts.

(** ** Instances of the further theorems *)




Lemma caller_entries_preserved_witness :
  let run := evaluate false (toy_openmp 3 (-1)) Numeric 1000 2000 (toy_mem 100 200) in
  let mem' := match run.2 with Ok (_, mem') => mem' | Raise _ => toy_mem 0 0 end in
  run.2 = Ok (tt, mem')
  ∧ (∀ k, k < 1 → m_arg mem' k = m_arg (toy_mem 100 200) k)
  ∧ (∀ k, k < 1 → m_res mem' k = m_res (toy_mem 100 200) k).
Proof.
  intros run mem'.
  assert (run.2 = Ok (tt, mem')) as Hrun by (vm_compute; reflexivity).
  split; [exact Hrun|].
  exact (caller_entries_preserved false (toy_openmp 3 (-1)) Numeric 1000 2000
           (toy_mem 100 200) tt mem' Hrun).
Defined.


Lemma evaluate_ok_invokes_all_witness :
  let run := evaluate false (toy_openmp 3 (-1)) Numeric 1000 2000 (toy_mem 100 200) in
  (0 ≤ 3 ∧ is_ok run.2 = true)
  ∧ map cr_replica run.1 = [0; 1; 2]
  ∧ Forall (λ r, cr_failed r = false) run.1.
Proof.
  intros run.
  assert (0 ≤ 3) as Hn by (vm_compute; discriminate).
  assert (is_ok run.2 = true) as Hok by (vm_compute; reflexivity).
  split; [by split|].
  exact (evaluate_ok_invokes_all false (toy_openmp 3 (-1)) Numeric 1000 2000
           (toy_mem 100 200) Hn Hok).
Defined.

Lemma openmp_scratch_extent_witness :
  let run := evaluate false (toy_openmp 3 (-1)) Numeric 1000 2000 (toy_mem 100 200) in
  let mem' := match run.2 with Ok (_, mem') => mem' | Raise _ => toy_mem 0 0 end in
  (cls (toy_openmp 3 (-1)) = ClsMapOmp ∧ run.2 = Ok (tt, mem'))
  ∧ (∀ k, ¬ (1 ≤ k < 1 + 1 * 3) → m_arg mem' k = m_arg (toy_mem 100 200) k)
  ∧ (∀ k, ¬ (1 ≤ k < 1 + 1 * 3) → m_res mem' k = m_res (toy_mem 100 200) k).
Proof.
  intros run mem'.
  assert (run.2 = Ok (tt, mem')) as Hrun by (vm_compute; reflexivity).
  assert (n_in_ (toy_openmp 3 (-1)) ≤ Z.of_N (sz_arg (f_ (toy_openmp 3 (-1)))))
    as Hin by (vm_compute; discriminate).
  assert (n_out_ (toy_openmp 3 (-1)) ≤ Z.of_N (sz_res (f_ (toy_openmp 3 (-1)))))
    as Hout by (vm_compute; discriminate).
  split; [split; [reflexivity|exact Hrun]|].
  exact (openmp_scratch_extent (toy_openmp 3 (-1)) 1000 2000
           (toy_mem 100 200) tt mem' eq_refl Hin Hout Hrun).
Defined.

Lemma nonpositive_count_is_a_no_op_witness :
  (MapBase_create (world:=Z) "m" "openmp" (toy32 0) 0 [] = Ok (toy_openmp 0 0)
   ∧ 0 ≤ 0)
  ∧ evaluate false (toy_openmp 0 0) Numeric 1000 2000 (toy_mem 100 200)
    = ([], Ok (tt, toy_mem 100 200)).
Proof.
  assert (0 ≤ 0) as Hn by (vm_compute; discriminate).
  split; [split; [reflexivity|exact Hn]|].
  exact (proj1 (nonpositive_count_is_a_no_op (world:=Z) "m" "openmp" (toy32 0) 0 []
                  (toy_openmp 0 0) eq_refl Hn)
           false Numeric 1000 2000 (toy_mem 100 200)).
Defined.

Lemma derivative_maps_compose_witness :
  let m1 := MapOmp_init [] (MapBase_new ClsMapOmp "d" (toy_forward (toy32 (-1)) 1) 3) in
  Map_get_forward_old (world:=Z) (toy_openmp 3 (-1)) "d" 1 [] = Ok m1
  ∧ MapBase_n_in m1 = 3
  ∧ MapBase_n_out m1 = 1
  ∧ Map_get_forward_old (world:=Z) m1 "dd" 1 []
    = MapBase_create "dd" "openmp"
        (toy_forward (toy_forward (toy32 (-1)) 1) 1) 3 []
  ∧ Map_get_reverse_old (world:=Z) m1 "dd" 1 []
    = MapBase_create "dd" "openmp"
        (toy_reverse (toy_forward (toy32 (-1)) 1) 1) 3 [].
Proof.
  intros m1. split; [reflexivity|].
  exact (derivative_maps_compose (world:=Z) (toy_openmp 3 (-1)) "d" 1 "dd" 1 []
           m1 eq_refl).
Defined.
